(** * remill-template: the hotpatch linker of [src/example.cpp]

    [hotpatchRemill] loads a patch module, forces its target metadata to the
    semantics module's, renames the semantics module's [ISEL_] global
    variables the patch redefines, and links the patch in with
    [OverrideFromSrc].  [main] guards the call with its own existence test,
    and [exepath.hpp] caches the executable's location in function-local
    statics.

    The program is a client of the LLVM API.  The parts of that API the
    function calls are modelled first (symbol table, [getGlobalVariable],
    [setName] with LLVM's automatic renaming on a name clash, the linker);
    the functions of the repository follow, written statement by statement
    after the source. *)

From Stdlib Require Import String Ascii List Bool Arith Lia.
From Stdlib Require Import Decimal DecimalNat DecimalString ZArith.
Import ListNotations.
Open Scope string_scope.

(* ================================================================== *)
(** ** Module representation (llvm::Module, as far as the program uses it) *)
(* ================================================================== *)

(** The two kinds of symbols a module's symbol table holds here. *)
Inductive ValueKind : Type :=
| GlobalVariableKind
| FunctionKind.

Definition ValueKind_eqb (a b : ValueKind) : bool :=
  match a, b with
  | GlobalVariableKind, GlobalVariableKind => true
  | FunctionKind, FunctionKind => true
  | _, _ => false
  end.

(** A global value: its name, its kind and its definition (the initializer
    of a global variable, the body of a function), kept opaque.  Every symbol
    is a named, exported definition: linkage, declarations without a body
    and references between symbols are outside the model. *)
Record GlobalValue : Type := mkGlobalValue {
  getName : string;
  getKind : ValueKind;
  getBody : string
}.

(** [llvm::Module]: the symbol table in list order, the target metadata, and
    the counter [LastUnique] of the module's ValueSymbolTable, from which
    automatic renamings draw their numeric suffix. *)
Record IRModule : Type := mkModule {
  SymTab : list GlobalValue;
  getDataLayout : string;
  getTargetTriple : string;
  LastUnique : nat
}.

Definition withName (v : GlobalValue) (n : string) : GlobalValue :=
  {| getName := n; getKind := getKind v; getBody := getBody v |}.

Definition isGlobalVariable (v : GlobalValue) : bool :=
  ValueKind_eqb (getKind v) GlobalVariableKind.

Definition isFunction (v : GlobalValue) : bool :=
  ValueKind_eqb (getKind v) FunctionKind.

Definition hasName (n : string) (v : GlobalValue) : bool :=
  String.eqb (getName v) n.

(** [Module::globals()]: the global variables, in order; functions are not
    part of this range. *)
Definition globals (m : IRModule) : list GlobalValue :=
  filter isGlobalVariable (SymTab m).

(** [Module::functions()]. *)
Definition functions (m : IRModule) : list GlobalValue :=
  filter isFunction (SymTab m).

Definition names (m : IRModule) : list string := map getName (SymTab m).

(** [Module::getNamedValue]: symbol-table lookup, whatever the kind. *)
Definition getNamedValue (m : IRModule) (n : string) : option GlobalValue :=
  find (hasName n) (SymTab m).

(** [Module::getGlobalVariable(Name)]: the named value when it is a global
    variable, null when the name is free or names a function. *)
Definition getGlobalVariable (m : IRModule) (n : string) : option GlobalValue :=
  match getNamedValue m n with
  | Some v => if isGlobalVariable v then Some v else None
  | None => None
  end.

Definition setDataLayout (m : IRModule) (dl : string) : IRModule :=
  {| SymTab := SymTab m; getDataLayout := dl;
     getTargetTriple := getTargetTriple m; LastUnique := LastUnique m |}.

Definition setTargetTriple (m : IRModule) (t : string) : IRModule :=
  {| SymTab := SymTab m; getDataLayout := getDataLayout m;
     getTargetTriple := t; LastUnique := LastUnique m |}.

(* ------------------------------------------------------------------ *)
(** *** Renaming: Value::setName and ValueSymbolTable::makeUniqueName *)
(* ------------------------------------------------------------------ *)

Definition nameTaken (taken : list string) (n : string) : bool :=
  existsb (String.eqb n) taken.

Definition decimal (k : nat) : string :=
  NilEmpty.string_of_uint (Nat.to_uint k).

(** The name tried for counter value [k]: for a global value LLVM appends a
    dot and the counter. *)
Definition uniqueCandidate (base : string) (k : nat) : string :=
  base ++ "." ++ decimal k.

(** [ValueSymbolTable::makeUniqueName]: increment [LastUnique] and try again
    until the candidate is free.  The loop is bounded by [fuel]; with more
    fuel than names in the table it always ends on a free name
    ([makeUniqueName_fresh]).  Returns the name and the new counter. *)
Fixpoint makeUniqueName (fuel : nat) (taken : list string) (base : string)
    (last : nat) : string * nat :=
  let cand := uniqueCandidate base (S last) in
  match fuel with
  | 0 => (cand, S last)
  | S fuel' =>
      if nameTaken taken cand
      then makeUniqueName fuel' taken base (S last)
      else (cand, S last)
  end.

(** The names held by the values other than the one called [old]. *)
Definition otherNames (m : IRModule) (old : string) : list string :=
  filter (fun n => negb (String.eqb n old)) (names m).

(** The name a value called [old] ends up with when [setName(req)] is called
    on it: [req] itself when no other value holds it, otherwise a unique
    name derived from [req]. *)
Definition assignedName (m : IRModule) (old req : string) : string * nat :=
  if nameTaken (otherNames m old) req
  then makeUniqueName (S (List.length (otherNames m old)))
         (otherNames m old) req (LastUnique m)
  else (req, LastUnique m).

Definition renameValue (old new : string) (v : GlobalValue) : GlobalValue :=
  if hasName old v then withName v new else v.

(** [Value::setName] on the value of [m] that is called [old]. *)
Definition setName (m : IRModule) (old req : string) : IRModule :=
  if String.eqb req old then m
  else
    let '(new, last) := assignedName m old req in
    {| SymTab := map (renameValue old new) (SymTab m);
       getDataLayout := getDataLayout m;
       getTargetTriple := getTargetTriple m;
       LastUnique := last |}.

(* ------------------------------------------------------------------ *)
(** *** Linking: llvm::Linker::linkModules with Flags::OverrideFromSrc *)
(* ------------------------------------------------------------------ *)

Definition eraseValue (m : IRModule) (n : string) : IRModule :=
  {| SymTab := filter (fun v => negb (hasName n v)) (SymTab m);
     getDataLayout := getDataLayout m;
     getTargetTriple := getTargetTriple m;
     LastUnique := LastUnique m |}.

Definition insertValue (m : IRModule) (v : GlobalValue) : IRModule :=
  {| SymTab := (SymTab m ++ [v])%list;
     getDataLayout := getDataLayout m;
     getTargetTriple := getTargetTriple m;
     LastUnique := LastUnique m |}.

(** One source value under [OverrideFromSrc]: the source definition is
    always taken; a destination value of the same name is replaced by it. *)
Definition linkGlobalValue (dst : IRModule) (sgv : GlobalValue) : IRModule :=
  insertValue (eraseValue dst (getName sgv)) sgv.

(** The values of the source in the order the linker visits them: the global
    variables, then the functions. *)
Definition valuesToLink (src : IRModule) : list GlobalValue :=
  (globals src ++ functions src)%list.

(** The destination after a merge that completes. *)
Definition linkInto (dst src : IRModule) : IRModule :=
  fold_left linkGlobalValue (valuesToLink src) dst.

(** The destination after a merge that stops on an error with the first
    [moved] values of the source already linked in. *)
Definition linkPartially (moved : nat) (dst src : IRModule) : IRModule :=
  fold_left linkGlobalValue (firstn moved (valuesToLink src)) dst.

(* ================================================================== *)
(** ** The environment of a run: file system, output streams *)
(* ================================================================== *)

(** What [llvm::parseIRFile] makes of a file's content: the diagnostic
    message of a failed parse, or the parsed module. *)
Definition File : Type := (string + IRModule)%type.

(** A snapshot of the file system: the files that exist, by path. *)
Definition FileSystem : Type := string -> option File.

(** [std::filesystem::exists]. *)
Definition exists_ (fs : FileSystem) (path : string) : bool :=
  match fs path with
  | Some _ => true
  | None => false
  end.

(** [llvm::parseIRFile]: null (here [inl], with the diagnostic's message)
    when the file cannot be read or is not valid IR. *)
Definition parseIRFile (fs : FileSystem) (path : string) : string + IRModule :=
  match fs path with
  | Some content => content
  | None => inl "Could not open input file"
  end.

(** What the code of the program does to the world around it, in program
    order: the file-system queries, the mutating calls on the two modules,
    the call of the linker, and the text its own statements write to
    [llvm::outs()] and [llvm::errs()].  What LLVM prints by itself from
    inside a call (the diagnostics the linker hands to the context's default
    handler) belongs to that call's event and is not itemised. *)
Inductive Event : Type :=
| FsExists (path : string) (found : bool)
| ParseIRFile (path : string) (parsed : bool)
| SetDataLayout (layout : string)
| SetTargetTriple (triple : string)
| SetName (old requested : string)
| LinkModules (failed : bool)
| Outs (text : string)
| Errs (text : string).

Definition nl : string := String (ascii_of_nat 10) "".

(** The variables of [hotpatchRemill] once the patch is parsed: the semantics
    module [module] (a reference, mutated in place), the patch module, and
    the events so far. *)
Record Hotpatch : Type := mkHotpatch {
  module : IRModule;
  patchModule : IRModule;
  log : list Event
}.

(* ================================================================== *)
(** ** src/example.cpp: hotpatchRemill *)
(* ================================================================== *)

(** Lines 57-58: the patch module takes the data layout and the target triple
    of the semantics module. *)
Definition adjustTarget (st : Hotpatch) : Hotpatch :=
  let layout := getDataLayout (module st) in
  let triple := getTargetTriple (module st) in
  {| module := module st;
     patchModule :=
       setTargetTriple (setDataLayout (patchModule st) layout) triple;
     log := (log st ++ [SetDataLayout layout; SetTargetTriple triple])%list |}.

(** Lines 63-72, the body of the loop for one global variable of the patch.
    [globalName.rfind("ISEL_", 0) == 0] holds exactly when [globalName]
    starts with [ISEL_]. *)
Definition renameExisting (st : Hotpatch) (global : GlobalValue) : Hotpatch :=
  let globalName := getName global in
  if String.prefix "ISEL_" globalName then
    match getGlobalVariable (module st) globalName with
    | Some existingGlobal =>
        {| module := setName (module st) (getName existingGlobal)
                       (globalName ++ "_original");
           patchModule := patchModule st;
           log := (log st
                   ++ [SetName (getName existingGlobal)
                         (globalName ++ "_original")%string;
                       Outs ("Hotpatching: " ++ globalName ++ nl)%string])%list
        |}
    | None => st
    end
  else st.

(** Lines 62-73: the loop over [patchModule->globals()]. *)
Definition resolveCollisions (st : Hotpatch) : Hotpatch :=
  fold_left renameExisting (globals (patchModule st)) st.

(** Lines 47-54 on the path where the file exists and parses: the two
    modules in hand, nothing mutated yet. *)
Definition loaded (module0 patch0 : IRModule) (hotpatchPath : string)
    : Hotpatch :=
  {| module := module0; patchModule := patch0;
     log := [FsExists hotpatchPath true; ParseIRFile hotpatchPath true] |}.

Section Program.

(** Whether [llvm::Linker::linkModules] reports an error for a destination
    and a source, and if so how many values of the source it had linked in
    by then: [None] when the merge completes, [Some 0] when it fails before
    touching the destination, [Some k] when it fails after [k] values.  The
    causes (module flags, comdats, appending globals) are outside the model,
    so the verdict is a parameter. *)
Variable LinkError : IRModule -> IRModule -> option nat.

(** [llvm::Linker::linkModules(dest, src, OverrideFromSrc)]: true on error,
    and the destination as the call leaves it.  The diagnostics the linker
    prints on its way are not part of the result. *)
Definition linkModules (dest src : IRModule) : bool * IRModule :=
  match LinkError dest src with
  | Some moved => (true, linkPartially moved dest src)
  | None => (false, linkInto dest src)
  end.

(** Lines 40-84.  The result is the returned flag, the semantics module as
    the call leaves it, and the events of the call. *)
Definition hotpatchRemill (fs : FileSystem) (module0 : IRModule)
    (hotpatchPath : string) : bool * IRModule * list Event :=
  if negb (exists_ fs hotpatchPath) then
    (false, module0,
     [FsExists hotpatchPath false;
      Errs ("Hotpatch file not found: " ++ hotpatchPath ++ nl)])
  else
    match parseIRFile fs hotpatchPath with
    | inl error =>
        (false, module0,
         [FsExists hotpatchPath true; ParseIRFile hotpatchPath false;
          Errs ("Failed to parse hotpatch module: " ++ error ++ nl)])
    | inr patch0 =>
        let st := loaded module0 patch0 hotpatchPath in
        let st := adjustTarget st in
        let st := resolveCollisions st in
        let '(failed, module1) := linkModules (module st) (patchModule st) in
        if failed then
          (false, module1,
           (log st
            ++ [LinkModules true;
                Errs ("Failed to link hotpatch module" ++ nl)%string])%list)
        else
          (true, module1, (log st ++ [LinkModules false])%list)
    end.

(* ================================================================== *)
(** ** src/exepath.hpp *)
(* ================================================================== *)

(** [std::filesystem::weakly_canonical], [path::parent_path] and
    [operator/] of the standard library. *)
Variable weakly_canonical : string -> string.
Variable parent_path : string -> string.
Variable path_append : string -> string -> string.

(** The two function-local statics, [None] until their initialisation. *)
Record Statics : Type := mkStatics {
  executablePath_path : option string;
  executableDir_path : option string
}.

Definition noStatics : Statics :=
  {| executablePath_path := None; executableDir_path := None |}.

(** Lines 46-50.  [executable_path_impl] is what the platform's
    [executable_path_impl()] would return if it were called now; the
    initialiser of the static runs on the first call only.  The platform is
    taken to answer with a path: a [realpath] that fails hands line 27 a null
    pointer to build the path from, which has no defined behaviour and is
    outside the model. *)
Definition executablePath (executable_path_impl : string) (s : Statics)
    : string * Statics :=
  match executablePath_path s with
  | Some path => (path, s)
  | None =>
      let path := weakly_canonical executable_path_impl in
      (path, {| executablePath_path := Some path;
                executableDir_path := executableDir_path s |})
  end.

(** Lines 52-55. *)
Definition executableDir (executable_path_impl : string) (s : Statics)
    : string * Statics :=
  match executableDir_path s with
  | Some path => (path, s)
  | None =>
      let '(exe, s1) := executablePath executable_path_impl s in
      let path := parent_path exe in
      (path, {| executablePath_path := executablePath_path s1;
                executableDir_path := Some path |})
  end.

(** The calls a process can make, each paired below with what the platform
    would answer at that moment. *)
Inductive Call : Type :=
| CallExecutablePath
| CallExecutableDir.

Definition call (c : Call) (executable_path_impl : string) (s : Statics)
    : string * Statics :=
  match c with
  | CallExecutablePath => executablePath executable_path_impl s
  | CallExecutableDir => executableDir executable_path_impl s
  end.

(** The value the static behind a function holds. *)
Definition cached (c : Call) (s : Statics) : option string :=
  match c with
  | CallExecutablePath => executablePath_path s
  | CallExecutableDir => executableDir_path s
  end.

(** What holds of the statics once the path is cached: the directory is
    either not computed yet or the parent of the cached path. *)
Definition pathCached (p : string) (s : Statics) : Prop :=
  executablePath_path s = Some p /\
  (executableDir_path s = None \/ executableDir_path s = Some (parent_path p)).

(** Runs the calls in order; returns what each call returned and the statics
    at the end. *)
Fixpoint runCalls (cs : list (Call * string)) (s : Statics)
    : list (Call * string) * Statics :=
  match cs with
  | [] => ([], s)
  | (c, impl) :: cs' =>
      let '(r, s1) := call c impl s in
      let '(rs, s2) := runCalls cs' s1 in
      ((c, r) :: rs, s2)
  end.

(* ================================================================== *)
(** ** src/example.cpp: main *)
(* ================================================================== *)

Definition EXIT_SUCCESS : nat := 0.
Definition EXIT_FAILURE : nat := 1.

(** Line 106: the default location of the patch. *)
Definition defaultHotpatchPath (executable_path_impl : string) (s : Statics)
    : string * Statics :=
  let '(dir, s') := executableDir executable_path_impl s in
  (path_append dir "helpers/x86_64/RemillHotpatch.bc", s').

(** Lines 106-109: [argv[1]], when given, replaces the default.  Line 106
    evaluates [executableDir()] in either case, first thing, on the statics
    of a fresh process; see [executablePath] for what is assumed of the
    platform. *)
Definition selectHotpatchPath (executable_path_impl : string)
    (argv : list string) : string :=
  let hotpatchPath :=
    fst (defaultHotpatchPath executable_path_impl noStatics) in
  if Nat.ltb 1 (List.length argv) then nth 1 argv "" else hotpatchPath.

(** Lines 111-119.  [fs] is the file system when [main] tests the path,
    [fs'] the file system when [hotpatchRemill] runs. *)
Definition applyHotpatch (fs fs' : FileSystem) (semantics : IRModule)
    (hotpatchPath : string) : IRModule * list Event :=
  if exists_ fs hotpatchPath then
    let '(ok, semantics', events) :=
      hotpatchRemill fs' semantics hotpatchPath in
    (semantics',
     ([FsExists hotpatchPath true;
       Outs ("Applying hotpatch from: " ++ hotpatchPath ++ nl)%string]
      ++ events
      ++ (if ok then []
          else [Outs ("Warning: Failed to apply hotpatch" ++ nl)%string]))%list)
  else
    (semantics,
     [FsExists hotpatchPath false;
      Outs ("No hotpatch file found at: " ++ hotpatchPath ++ nl)]).

(** Lines 121-193, the lifting demonstration: it reads the semantics module,
    writes to [llvm::outs()] only, and ends in the exit code. *)
Variable liftExamples : IRModule -> nat * list string.

(** Lines 86-194.  [arch] tells whether [remill::Arch::Get] succeeded and
    [semantics] is the result of [remill::LoadArchSemantics]. *)
Definition main (fs fs' : FileSystem) (executable_path_impl : string)
    (argv : list string) (arch : bool) (semantics : option IRModule)
    : nat * list Event :=
  if negb arch then
    (EXIT_FAILURE, [Outs ("Failed to get architecture" ++ nl)])
  else
    match semantics with
    | None =>
        (EXIT_FAILURE, [Outs ("Failed to load architecture semantics" ++ nl)])
    | Some semantics0 =>
        let hotpatchPath := selectHotpatchPath executable_path_impl argv in
        let '(semantics1, events) :=
          applyHotpatch fs fs' semantics0 hotpatchPath in
        let '(code, printed) := liftExamples semantics1 in
        (code, (events ++ map Outs printed)%list)
    end.

End Program.

(* ================================================================== *)
(** ** Vocabulary of the properties, and the modules of the examples *)
(* ================================================================== *)

(** I1: symbol names are unique within a module. *)
Definition uniqueNames (m : IRModule) : Prop := NoDup (names m).

Definition isSelector (n : string) : bool := String.prefix "ISEL_" n.

Definition original (n : string) : string := n ++ "_original".

Definition notice (n : string) : string := "Hotpatching: " ++ n ++ nl.

(** The events the rename loop produces. *)
Definition isRenameEvent (e : Event) : Prop :=
  match e with
  | SetName _ _ => True
  | Outs _ => True
  | _ => False
  end.

Definition notFoundMessage (path : string) : string :=
  "Hotpatch file not found: " ++ path ++ nl.

(** The last character of a string, used to tell a name that ends in
    [_original] from an automatically renamed one, which ends in a digit. *)
Fixpoint lastChar (s : string) : option ascii :=
  match s with
  | EmptyString => None
  | String c s' =>
      match lastChar s' with
      | Some x => Some x
      | None => Some c
      end
  end.

(** P2 read literally: whenever both modules hold a global variable under
    the selector name [N] and the call succeeds, [N] resolves to the patch's
    value and [N_original] to the value the base held under [N]. *)
Definition override_precedence_as_stated : Prop :=
  forall (LinkError : IRModule -> IRModule -> option nat) (fs : FileSystem)
         (base patch m' : IRModule) (path : string) (events : list Event)
         (N : string) (pv bv : GlobalValue),
    uniqueNames base -> uniqueNames patch ->
    fs path = Some (inr patch) ->
    isSelector N = true ->
    getGlobalVariable patch N = Some pv ->
    getGlobalVariable base N = Some bv ->
    hotpatchRemill LinkError fs base path = (true, m', events) ->
    getNamedValue m' N = Some pv /\
    getNamedValue m' (original N) = Some (withName bv (original N)).

(** Section 4.3 read literally, with a symbol being a function or a global
    variable: every prefixed symbol of the patch whose name the base holds
    has the base's symbol renamed and a notice written. *)
Definition resolver_as_stated : Prop :=
  forall (st : Hotpatch) (s b : GlobalValue),
    uniqueNames (module st) -> uniqueNames (patchModule st) ->
    In s (SymTab (patchModule st)) ->
    isSelector (getName s) = true ->
    getNamedValue (module st) (getName s) = Some b ->
    getNamedValue (module (resolveCollisions st)) (original (getName s))
      = Some (withName b (original (getName s))) /\
    In (Outs (notice (getName s))) (log (resolveCollisions st)).

Definition gvar (n body : string) : GlobalValue :=
  {| getName := n; getKind := GlobalVariableKind; getBody := body |}.

Definition func (n body : string) : GlobalValue :=
  {| getName := n; getKind := FunctionKind; getBody := body |}.

(** Scenario A: the semantics module binds the CPUID selector, and the patch
    of helpers/x86_64/RemillHotpatch.cpp ([DEF_SEM(CPUID)],
    [DEF_ISEL(CPUID) = CPUID]) rebinds it. *)
Definition semantics_A : IRModule :=
  {| SymTab := [gvar "ISEL_CPUID" "F_old"; func "__remill_cpuid" "intrinsic"];
     getDataLayout := "e-m:e-i64:64-f80:128-n8:16:32:64-S128";
     getTargetTriple := "x86_64-pc-linux-gnu";
     LastUnique := 0 |}.

Definition patch_A : IRModule :=
  {| SymTab := [func "CPUID" "F_new_body"; gvar "ISEL_CPUID" "F_new"];
     getDataLayout := ""; getTargetTriple := ""; LastUnique := 0 |}.

(** A patch that also defines a global under a selector's suffixed name. *)
Definition patch_B : IRModule :=
  {| SymTab := [gvar "ISEL_A" "A_new"; gvar "ISEL_A_original" "X_new"];
     getDataLayout := ""; getTargetTriple := ""; LastUnique := 0 |}.

Definition semantics_B : IRModule :=
  {| SymTab := [gvar "ISEL_A" "A_old"];
     getDataLayout := "e"; getTargetTriple := "x86_64-pc-linux-gnu";
     LastUnique := 0 |}.

(** A patch whose prefixed symbol is a function, and one with a symbol
    outside the naming convention. *)
Definition patch_F : IRModule :=
  {| SymTab := [func "ISEL_F" "fn_new"];
     getDataLayout := ""; getTargetTriple := ""; LastUnique := 0 |}.

Definition semantics_F : IRModule :=
  {| SymTab := [gvar "ISEL_F" "F_old"];
     getDataLayout := "e"; getTargetTriple := "x86_64-pc-linux-gnu";
     LastUnique := 0 |}.

Definition patch_H : IRModule :=
  {| SymTab := [gvar "helper_table" "T_new"];
     getDataLayout := ""; getTargetTriple := ""; LastUnique := 0 |}.

Definition semantics_H : IRModule :=
  {| SymTab := [gvar "helper_table" "T_old"; gvar "ISEL_CPUID" "F_old"];
     getDataLayout := "e"; getTargetTriple := "x86_64-pc-linux-gnu";
     LastUnique := 0 |}.

(** File systems of the examples: one file at [patch.bc], or none. *)
Definition oneFile (content : File) : FileSystem :=
  fun path => if String.eqb path "patch.bc" then Some content else None.

Definition noFile : FileSystem := fun _ => None.

(** Linkers for the examples: one that always completes, one that fails
    before moving anything, one that fails after the first value. *)
Definition linkSucceeds : IRModule -> IRModule -> option nat :=
  fun _ _ => None.

Definition linkFails : IRModule -> IRModule -> option nat :=
  fun _ _ => Some 0.

Definition linkFailsLate : IRModule -> IRModule -> option nat :=
  fun _ _ => Some 1.

(** The state [st] with its log replaced. *)
Definition withLog (st : Hotpatch) (events : list Event) : Hotpatch :=
  {| module := module st; patchModule := patchModule st; log := events |}.

(** [patch_B] with its two globals in the other order. *)
Definition patch_Brev : IRModule :=
  {| SymTab := [gvar "ISEL_A_original" "X_new"; gvar "ISEL_A" "A_new"];
     getDataLayout := ""; getTargetTriple := ""; LastUnique := 0 |}.

(** Section 4.4 read literally: when the merge fails, whatever the loop moved
    to a suffixed name is still there when the call returns. *)
Definition link_failure_as_stated : Prop :=
  forall (LinkError : IRModule -> IRModule -> option nat) (fs : FileSystem)
         (base patch : IRModule) (path : string) (moved : nat)
         (N : string) (bv : GlobalValue),
    uniqueNames base -> uniqueNames patch ->
    fs path = Some (inr patch) ->
    LinkError
      (module (resolveCollisions (adjustTarget (loaded base patch path))))
      (patchModule (resolveCollisions (adjustTarget (loaded base patch path))))
    = Some moved ->
    isSelector N = true ->
    getGlobalVariable base N = Some bv ->
    getNamedValue
      (module (resolveCollisions (adjustTarget (loaded base patch path))))
      (original N) = Some (withName bv (original N)) ->
    fst (fst (hotpatchRemill LinkError fs base path)) = false /\
    getNamedValue (snd (fst (hotpatchRemill LinkError fs base path)))
      (original N) = Some (withName bv (original N)).

(** P1 read literally, over the module the loop is applied to: a selector of
    the patch that this module does not hold is never the subject of a
    [setName]. *)
Definition absent_selector_as_stated : Prop :=
  forall (base patch : IRModule) (path : string) (g : GlobalValue),
    uniqueNames base -> uniqueNames patch ->
    In g (globals patch) ->
    isSelector (getName g) = true ->
    getNamedValue base (getName g) = None ->
    forall requested,
      ~ In (SetName (getName g) requested)
           (log (resolveCollisions (loaded base patch path))).

(** What Scenario A must end in: the old binding under the suffixed name,
    the patch's symbols appended by the merge. *)
Definition patched_A : IRModule :=
  {| SymTab := [gvar "ISEL_CPUID_original" "F_old";
                func "__remill_cpuid" "intrinsic";
                gvar "ISEL_CPUID" "F_new";
                func "CPUID" "F_new_body"];
     getDataLayout := "e-m:e-i64:64-f80:128-n8:16:32:64-S128";
     getTargetTriple := "x86_64-pc-linux-gnu";
     LastUnique := 0 |}.

(** The semantics module of Scenario A after the rename loop alone. *)
Definition renamed_A : IRModule :=
  {| SymTab := [gvar "ISEL_CPUID_original" "F_old";
                func "__remill_cpuid" "intrinsic"];
     getDataLayout := "e-m:e-i64:64-f80:128-n8:16:32:64-S128";
     getTargetTriple := "x86_64-pc-linux-gnu";
     LastUnique := 0 |}.

(** Scenario A when the linker fails after moving the patch's first value,
    the selector, into the semantics module. *)
Definition half_patched_A : IRModule :=
  {| SymTab := [gvar "ISEL_CPUID_original" "F_old";
                func "__remill_cpuid" "intrinsic";
                gvar "ISEL_CPUID" "F_new"];
     getDataLayout := "e-m:e-i64:64-f80:128-n8:16:32:64-S128";
     getTargetTriple := "x86_64-pc-linux-gnu";
     LastUnique := 0 |}.

Definition events_A (failed : bool) : list Event :=
  [FsExists "patch.bc" true; ParseIRFile "patch.bc" true;
   SetDataLayout "e-m:e-i64:64-f80:128-n8:16:32:64-S128";
   SetTargetTriple "x86_64-pc-linux-gnu";
   SetName "ISEL_CPUID" "ISEL_CPUID_original";
   Outs (notice "ISEL_CPUID");
   LinkModules failed].

Definition patched_H : IRModule :=
  {| SymTab := [gvar "ISEL_CPUID" "F_old"; gvar "helper_table" "T_new"];
     getDataLayout := "e"; getTargetTriple := "x86_64-pc-linux-gnu";
     LastUnique := 0 |}.

Definition events_H : list Event :=
  [FsExists "patch.bc" true; ParseIRFile "patch.bc" true;
   SetDataLayout "e"; SetTargetTriple "x86_64-pc-linux-gnu";
   LinkModules false].

(** Stand-ins for the standard library's path functions and for the lifting
    demonstration, to run [main] and [exepath.hpp] on examples. *)
Definition canonical_example : string -> string := fun p => p.

Definition parent_example : string -> string :=
  fun p => if String.eqb p "/opt/remill/bin/example" then "/opt/remill/bin"
           else "/".

Definition append_example : string -> string -> string :=
  fun dir rel => dir ++ "/" ++ rel.

Definition lift_example : IRModule -> nat * list string :=
  fun _ => (EXIT_SUCCESS, ["=== Lifting: cpuid ==="]).

Definition calls_example : list (Call * string) :=
  [(CallExecutableDir, "/opt/remill/bin/example");
   (CallExecutablePath, "/tmp/moved/example");
   (CallExecutableDir, "/tmp/moved/example");
   (CallExecutablePath, "/tmp/moved/again")].

(* ================================================================== *)
(** ** helpers/x86_64/RemillHotpatch.cpp: the CPUID semantics *)
(* ================================================================== *)

(** The value a [uint32_t] holds for an integer: the integer modulo 2^32. *)
Definition uint32 (z : Z) : Z := (z mod 2 ^ 32)%Z.

(** remill's [Reg] on x86-64: [qword] is the 64-bit register, [dword] its
    low 32 bits. *)
Record Reg : Type := mkReg { qword : Z }.

Definition dword (r : Reg) : Z := uint32 (qword r).

(** Lines 11-16. *)
Record CPUIDResult : Type := mkCPUIDResult {
  eax : Z;
  ebx : Z;
  ecx : Z;
  edx : Z
}.

(** The four [uint32_t] fields as the structure holds them. *)
Definition asCPUIDResult (r : CPUIDResult) : CPUIDResult :=
  {| eax := uint32 (eax r); ebx := uint32 (ebx r);
     ecx := uint32 (ecx r); edx := uint32 (edx r) |}.

Section Cpuid.

(** remill's opaque [Memory], and the parts of [State] and of its [gpr] the
    function does not name. *)
Variable Memory : Type.
Variable OtherRegisters : Type.
Variable OtherState : Type.

Record GPR : Type := mkGPR {
  rax : Reg;
  rbx : Reg;
  rcx : Reg;
  rdx : Reg;
  gpr_others : OtherRegisters
}.

Record State : Type := mkState {
  gpr : GPR;
  state_others : OtherState
}.

(** Lines 18-19: the external intrinsic, as what it writes to [*result] for
    a memory pointer and the two arguments. *)
Variable __remill_cpuid : Memory -> Z -> Z -> CPUIDResult.

Definition set_rax (state : State) (v : Z) : State :=
  {| gpr := {| rax := mkReg v; rbx := rbx (gpr state);
               rcx := rcx (gpr state); rdx := rdx (gpr state);
               gpr_others := gpr_others (gpr state) |};
     state_others := state_others state |}.

Definition set_rbx (state : State) (v : Z) : State :=
  {| gpr := {| rax := rax (gpr state); rbx := mkReg v;
               rcx := rcx (gpr state); rdx := rdx (gpr state);
               gpr_others := gpr_others (gpr state) |};
     state_others := state_others state |}.

Definition set_rcx (state : State) (v : Z) : State :=
  {| gpr := {| rax := rax (gpr state); rbx := rbx (gpr state);
               rcx := mkReg v; rdx := rdx (gpr state);
               gpr_others := gpr_others (gpr state) |};
     state_others := state_others state |}.

Definition set_rdx (state : State) (v : Z) : State :=
  {| gpr := {| rax := rax (gpr state); rbx := rbx (gpr state);
               rcx := rcx (gpr state); rdx := mkReg v;
               gpr_others := gpr_others (gpr state) |};
     state_others := state_others state |}.

(** Lines 21-29, [DEF_SEM(CPUID)]: a function of the memory pointer and the
    state by reference, returning the memory pointer. *)
Definition CPUID (memory : Memory) (state : State) : Memory * State :=
  let result :=
    asCPUIDResult
      (__remill_cpuid memory (dword (rax (gpr state)))
         (dword (rcx (gpr state)))) in
  let state := set_rax state (eax result) in
  let state := set_rbx state (ebx result) in
  let state := set_rcx state (ecx result) in
  let state := set_rdx state (edx result) in
  (memory, state).

End Cpuid.

Arguments rax {OtherRegisters} g.
Arguments rbx {OtherRegisters} g.
Arguments rcx {OtherRegisters} g.
Arguments rdx {OtherRegisters} g.
Arguments gpr_others {OtherRegisters} g.
Arguments gpr {OtherRegisters OtherState} s.
Arguments state_others {OtherRegisters OtherState} s.
Arguments CPUID {Memory OtherRegisters OtherState} __remill_cpuid memory state.

(** The condition under which no renaming of the loop can land on the name
    [n]: no global variable of the patch has a suffixed name that [n]
    starts with. *)
Definition clearOfRenames (patch : IRModule) (n : string) : bool :=
  forallb (fun g => negb (String.prefix (original (getName g)) n))
    (globals patch).

(** The condition under which the patch defines neither [n] nor an
    automatically numbered variant of it. *)
Definition definesNoVariant (patch : IRModule) (n : string) : bool :=
  forallb (fun s => negb (String.prefix n (getName s))) (SymTab patch).

(** Examples: a semantics module patched once already, one that binds a
    selector name to a function, and a CPUID oracle. *)
Definition semantics_G : IRModule :=
  {| SymTab := [func "ISEL_CPUID" "fn_old"; gvar "ISEL_RDTSC" "R_old"];
     getDataLayout := "e"; getTargetTriple := "x86_64-pc-linux-gnu";
     LastUnique := 0 |}.

Definition cpuid_example : unit -> Z -> Z -> CPUIDResult :=
  fun _ leaf subleaf =>
    {| eax := (leaf + 2 ^ 32)%Z; ebx := subleaf; ecx := (-1)%Z; edx := 7%Z |}.

Definition state_example (a c : Z) : State unit unit :=
  {| gpr := {| rax := mkReg a; rbx := mkReg 11; rcx := mkReg c;
               rdx := mkReg 13; gpr_others := tt |};
     state_others := tt |}.

(** Proves [uniqueNames] of a module given in full. *)
Ltac unique_names :=
  unfold uniqueNames, names; simpl;
  repeat (constructor; [simpl; intuition discriminate |]);
  constructor.

(* ================================================================== *)
(** ** Strings *)
(* ================================================================== *)

Lemma append_cancel_l (a b c : string) : a ++ b = a ++ c -> b = c.
Proof.
  induction a as [|x a IH]; simpl; intros H.
  - exact H.
  - injection H as H. auto.
Qed.

Lemma length_append (a b : string) :
  String.length (a ++ b) = String.length a + String.length b.
Proof.
  induction a as [|x a IH]; simpl; [reflexivity | now rewrite IH].
Qed.

Lemma append_cancel_r (a b c : string) : a ++ c = b ++ c -> a = b.
Proof.
  revert b. induction a as [|x a IH]; intros [|y b] H; simpl in H.
  - reflexivity.
  - apply (f_equal String.length) in H. simpl in H.
    rewrite length_append in H. lia.
  - apply (f_equal String.length) in H. simpl in H.
    rewrite length_append in H. lia.
  - injection H as Hx H. subst y. f_equal. auto.
Qed.

Lemma original_inj (a b : string) : original a = original b -> a = b.
Proof. apply append_cancel_r. Qed.

Lemma original_neq (n : string) : original n <> n.
Proof.
  unfold original. intros H.
  apply (f_equal String.length) in H. rewrite length_append in H.
  simpl in H. lia.
Qed.

Lemma lastChar_append (a b : string) :
  lastChar (a ++ b) =
  match lastChar b with
  | Some x => Some x
  | None => lastChar a
  end.
Proof.
  induction a as [|c a IH]; simpl.
  - now destruct (lastChar b).
  - rewrite IH. now destruct (lastChar b); destruct (lastChar a).
Qed.

Lemma lastChar_original (n : string) : lastChar (original n) = Some "l"%char.
Proof. unfold original. now rewrite lastChar_append. Qed.

Lemma lastChar_digits (d : uint) :
  lastChar (NilEmpty.string_of_uint d) <> Some "l"%char.
Proof.
  induction d; simpl; try discriminate;
    destruct (lastChar (NilEmpty.string_of_uint d)); try discriminate;
    assumption.
Qed.

Lemma lastChar_uniqueCandidate (base : string) (k : nat) :
  lastChar (uniqueCandidate base k) <> Some "l"%char.
Proof.
  unfold uniqueCandidate, decimal.
  rewrite !lastChar_append.
  pose proof (lastChar_digits (Nat.to_uint k)) as H.
  destruct (lastChar (NilEmpty.string_of_uint (Nat.to_uint k)));
    [assumption | simpl; discriminate].
Qed.

(** An automatically renamed value never lands on a [_original] name. *)
Lemma uniqueCandidate_not_original (base n : string) (k : nat) :
  uniqueCandidate base k <> original n.
Proof.
  intros H. apply (lastChar_uniqueCandidate base k).
  rewrite H. apply lastChar_original.
Qed.

Lemma decimal_inj (j k : nat) : decimal j = decimal k -> j = k.
Proof.
  unfold decimal. intros H.
  apply (f_equal NilEmpty.uint_of_string) in H.
  rewrite !NilEmpty.usu in H. injection H as H.
  apply (f_equal Nat.of_uint) in H.
  now rewrite !DecimalNat.Unsigned.of_to in H.
Qed.

Lemma uniqueCandidate_inj (base : string) (j k : nat) :
  uniqueCandidate base j = uniqueCandidate base k -> j = k.
Proof.
  unfold uniqueCandidate. intros H.
  apply append_cancel_l in H. apply append_cancel_l in H.
  now apply decimal_inj.
Qed.

(* ================================================================== *)
(** ** makeUniqueName ends on a free name *)
(* ================================================================== *)

Lemma nameTaken_true (taken : list string) (n : string) :
  nameTaken taken n = true <-> In n taken.
Proof.
  unfold nameTaken. rewrite existsb_exists. split.
  - intros (x & Hx & E). apply String.eqb_eq in E. now subst.
  - intros H. exists n. split; [assumption | apply String.eqb_refl].
Qed.

Lemma nameTaken_false (taken : list string) (n : string) :
  nameTaken taken n = false <-> ~ In n taken.
Proof.
  rewrite <- nameTaken_true. destruct (nameTaken taken n); split;
    congruence.
Qed.

Lemma makeUniqueName_shape (fuel : nat) (taken : list string) (base : string)
    (last : nat) :
  exists k, last < k /\
            makeUniqueName fuel taken base last = (uniqueCandidate base k, k).
Proof.
  revert last. induction fuel as [|fuel IH]; intros last; simpl.
  - exists (S last). split; [lia | reflexivity].
  - destruct (nameTaken taken (uniqueCandidate base (S last))).
    + destruct (IH (S last)) as (k & Hk & E). exists k. split; [lia | exact E].
    + exists (S last). split; [lia | reflexivity].
Qed.

Lemma makeUniqueName_finds (fuel : nat) (taken : list string) (base : string) :
  forall last,
    (exists k, last < k <= last + fuel /\
               nameTaken taken (uniqueCandidate base k) = false) ->
    nameTaken taken (fst (makeUniqueName fuel taken base last)) = false.
Proof.
  induction fuel as [|fuel IH]; intros last (k & Hk & Hfree); simpl.
  - lia.
  - destruct (nameTaken taken (uniqueCandidate base (S last))) eqn:E.
    + apply IH. exists k. split; [|exact Hfree].
      assert (k <> S last) by (intros ->; congruence). lia.
    + exact E.
Qed.

(** Among more candidates than there are names, one is free. *)
Lemma free_candidate (taken : list string) (base : string) (last : nat) :
  exists k, last < k <= last + S (List.length taken) /\
            nameTaken taken (uniqueCandidate base k) = false.
Proof.
  set (ks := seq (S last) (S (List.length taken))).
  set (free := fun k => negb (nameTaken taken (uniqueCandidate base k))).
  destruct (existsb free ks) eqn:E.
  - apply existsb_exists in E. destruct E as (k & Hin & Hk).
    apply in_seq in Hin. apply negb_true_iff in Hk.
    exists k. split; [lia | exact Hk].
  - exfalso.
    assert (Hincl : incl (map (uniqueCandidate base) ks) taken).
    { intros n Hn. apply in_map_iff in Hn. destruct Hn as (k & <- & Hin).
      apply nameTaken_true.
      destruct (nameTaken taken (uniqueCandidate base k)) eqn:Ek;
        [reflexivity|].
      assert (existsb free ks = true) as Hx.
      { apply existsb_exists. exists k. split; [exact Hin|].
        unfold free. now rewrite Ek. }
      congruence. }
    assert (Hnd : NoDup (map (uniqueCandidate base) ks)).
    { apply NoDup_map_NoDup_ForallPairs; [| apply seq_NoDup].
      intros j k _ _. apply uniqueCandidate_inj. }
    apply NoDup_incl_length in Hincl; [| exact Hnd].
    rewrite length_map in Hincl. unfold ks in Hincl.
    rewrite length_seq in Hincl. lia.
Qed.

Lemma makeUniqueName_fresh (taken : list string) (base : string) (last : nat) :
  ~ In (fst (makeUniqueName (S (List.length taken)) taken base last)) taken.
Proof.
  apply nameTaken_false. apply makeUniqueName_finds. apply free_candidate.
Qed.

(* ================================================================== *)
(** ** The symbol table under setName *)
(* ================================================================== *)

Lemma hasName_true (n : string) (v : GlobalValue) :
  hasName n v = true <-> getName v = n.
Proof. unfold hasName. apply String.eqb_eq. Qed.

Lemma hasName_false (n : string) (v : GlobalValue) :
  hasName n v = false <-> getName v <> n.
Proof. unfold hasName. apply String.eqb_neq. Qed.

Lemma getNamedValue_name (m : IRModule) (n : string) (v : GlobalValue) :
  getNamedValue m n = Some v -> getName v = n.
Proof.
  unfold getNamedValue. intros H. apply find_some in H.
  now apply hasName_true.
Qed.

Lemma getNamedValue_In (m : IRModule) (n : string) (v : GlobalValue) :
  getNamedValue m n = Some v -> In n (names m).
Proof.
  intros H. pose proof (getNamedValue_name _ _ _ H) as E.
  unfold getNamedValue in H. apply find_some in H. destruct H as [H _].
  unfold names. rewrite <- E. now apply in_map.
Qed.

Lemma getNamedValue_None (m : IRModule) (n : string) :
  getNamedValue m n = None <-> ~ In n (names m).
Proof.
  unfold getNamedValue, names. split.
  - intros H Hin. apply in_map_iff in Hin. destruct Hin as (v & E & Hv).
    pose proof (find_none _ _ H _ Hv) as F.
    apply hasName_false in F. contradiction.
  - intros H. destruct (find (hasName n) (SymTab m)) as [v|] eqn:E;
      [| reflexivity].
    exfalso. apply H. apply (getNamedValue_In m n v E).
Qed.

Lemma getGlobalVariable_Some (m : IRModule) (n : string) (v : GlobalValue) :
  getGlobalVariable m n = Some v <->
  getNamedValue m n = Some v /\ isGlobalVariable v = true.
Proof.
  unfold getGlobalVariable. destruct (getNamedValue m n) as [w|].
  - destruct (isGlobalVariable w) eqn:E; split.
    + intros [= ->]. auto.
    + intros [[= ->] _]. reflexivity.
    + discriminate.
    + intros [[= ->] H]. congruence.
  - split; [discriminate | intros [H _]; discriminate].
Qed.

Lemma renameValue_hit (old new : string) (v : GlobalValue) :
  hasName old v = true -> renameValue old new v = withName v new.
Proof. unfold renameValue. now intros ->. Qed.

Lemma renameValue_miss (old new : string) (v : GlobalValue) :
  hasName old v = false -> renameValue old new v = v.
Proof. unfold renameValue. now intros ->. Qed.

Lemma hasName_withName (n new : string) (v : GlobalValue) :
  hasName n (withName v new) = String.eqb new n.
Proof. reflexivity. Qed.

Lemma find_rename_other (old new n : string) (l : list GlobalValue) :
  n <> old -> n <> new ->
  find (hasName n) (map (renameValue old new) l) = find (hasName n) l.
Proof.
  intros Ho Hn. induction l as [|v l IH]; simpl; [reflexivity|].
  destruct (hasName old v) eqn:E.
  - rewrite (renameValue_hit old new v E), hasName_withName.
    apply hasName_true in E.
    assert (String.eqb new n = false) as ->
      by (apply String.eqb_neq; congruence).
    assert (hasName n v = false) as -> by (apply hasName_false; congruence).
    exact IH.
  - rewrite (renameValue_miss old new v E).
    destruct (hasName n v); [reflexivity | exact IH].
Qed.

Lemma find_rename_free (old new n : string) (l : list GlobalValue) :
  n <> new ->
  find (hasName n) l = None ->
  find (hasName n) (map (renameValue old new) l) = None.
Proof.
  intros Hn. induction l as [|v l IH]; simpl; [reflexivity|].
  destruct (hasName n v) eqn:E; [discriminate|]. intros H.
  destruct (hasName old v) eqn:Eo.
  - rewrite (renameValue_hit old new v Eo), hasName_withName.
    assert (String.eqb new n = false) as ->
      by (apply String.eqb_neq; congruence).
    auto.
  - rewrite (renameValue_miss old new v Eo), E. auto.
Qed.

Lemma find_rename_hit (old new : string) (v : GlobalValue)
    (l : list GlobalValue) :
  old <> new ->
  find (hasName old) l = Some v ->
  find (hasName new) l = None ->
  find (hasName new) (map (renameValue old new) l) = Some (withName v new).
Proof.
  intros Hne. induction l as [|w l IH]; simpl; [discriminate|].
  destruct (hasName new w) eqn:En; [discriminate|].
  destruct (hasName old w) eqn:Eo.
  - intros [= ->] _.
    rewrite (renameValue_hit old new v Eo), hasName_withName.
    now rewrite String.eqb_refl.
  - rewrite (renameValue_miss old new w Eo), En. auto.
Qed.

Lemma find_rename_gone (old new : string) (l : list GlobalValue) :
  old <> new ->
  find (hasName old) (map (renameValue old new) l) = None.
Proof.
  intros Hne. induction l as [|w l IH]; simpl; [reflexivity|].
  destruct (hasName old w) eqn:Eo.
  - rewrite (renameValue_hit old new w Eo), hasName_withName.
    assert (String.eqb new old = false) as ->
      by (apply String.eqb_neq; congruence).
    exact IH.
  - rewrite (renameValue_miss old new w Eo), Eo. exact IH.
Qed.

(** The name [setName] settles on is held by no other value. *)
Lemma assignedName_fresh (m : IRModule) (old req : string) :
  ~ In (fst (assignedName m old req)) (otherNames m old).
Proof.
  unfold assignedName.
  destruct (nameTaken (otherNames m old) req) eqn:E.
  - apply makeUniqueName_fresh.
  - simpl. now apply nameTaken_false.
Qed.

Lemma assignedName_shape (m : IRModule) (old req : string) :
  fst (assignedName m old req) = req \/
  exists k, fst (assignedName m old req) = uniqueCandidate req k.
Proof.
  unfold assignedName.
  destruct (nameTaken (otherNames m old) req).
  - right.
    destruct (makeUniqueName_shape (S (List.length (otherNames m old)))
                (otherNames m old) req (LastUnique m)) as (k & _ & E).
    exists k. now rewrite E.
  - now left.
Qed.

Lemma assignedName_free (m : IRModule) (old req : string) :
  getNamedValue m req = None ->
  fst (assignedName m old req) = req.
Proof.
  intros H. unfold assignedName.
  assert (nameTaken (otherNames m old) req = false) as ->; [| reflexivity].
  apply nameTaken_false. intros Hin. unfold otherNames in Hin.
  apply filter_In in Hin. destruct Hin as [Hin _].
  now apply getNamedValue_None in H.
Qed.

Lemma otherNames_In (m : IRModule) (old n : string) :
  In n (names m) -> n <> old -> In n (otherNames m old).
Proof.
  intros Hin Hne. unfold otherNames. apply filter_In. split; [exact Hin|].
  apply negb_true_iff. now apply String.eqb_neq.
Qed.

Lemma SymTab_setName (m : IRModule) (old req : string) :
  req <> old ->
  SymTab (setName m old req)
  = map (renameValue old (fst (assignedName m old req))) (SymTab m).
Proof.
  intros H. unfold setName. apply String.eqb_neq in H. rewrite H.
  now destruct (assignedName m old req).
Qed.

(** A binding under another name survives a renaming. *)
Lemma setName_keeps (m : IRModule) (old req n : string) (v : GlobalValue) :
  n <> old ->
  getNamedValue m n = Some v ->
  getNamedValue (setName m old req) n = Some v.
Proof.
  intros Hne H. destruct (String.eqb_spec req old) as [->|Hr].
  - unfold setName. now rewrite String.eqb_refl.
  - unfold getNamedValue. rewrite SymTab_setName by assumption.
    rewrite find_rename_other; [exact H | exact Hne |].
    intros ->. apply (assignedName_fresh m old req).
    apply otherNames_In; [| exact Hne]. apply (getNamedValue_In m _ _ H).
Qed.

(** A free name stays free unless the renaming lands on it. *)
Lemma setName_keeps_free (m : IRModule) (old req n : string) :
  n <> req ->
  (forall k, n <> uniqueCandidate req k) ->
  getNamedValue m n = None ->
  getNamedValue (setName m old req) n = None.
Proof.
  intros Hr Hk H. destruct (String.eqb_spec req old) as [->|Hne].
  - unfold setName. now rewrite String.eqb_refl.
  - unfold getNamedValue. rewrite SymTab_setName by assumption.
    apply find_rename_free; [| exact H].
    destruct (assignedName_shape m old req) as [E | (k & E)]; rewrite E.
    + exact Hr.
    + apply Hk.
Qed.

(** Renaming to a free name binds that name to the renamed value and frees
    the old one. *)
Lemma setName_renames (m : IRModule) (old req : string) (v : GlobalValue) :
  req <> old ->
  getNamedValue m old = Some v ->
  getNamedValue m req = None ->
  getNamedValue (setName m old req) req = Some (withName v req) /\
  getNamedValue (setName m old req) old = None.
Proof.
  intros Hne Hv Hfree. unfold getNamedValue.
  rewrite SymTab_setName by assumption.
  rewrite (assignedName_free m old req Hfree). split.
  - apply find_rename_hit; auto.
  - apply find_rename_gone; auto.
Qed.

Lemma setName_metadata (m : IRModule) (old req : string) :
  getDataLayout (setName m old req) = getDataLayout m /\
  getTargetTriple (setName m old req) = getTargetTriple m.
Proof.
  unfold setName. destruct (String.eqb req old); [now split|].
  now destruct (assignedName m old req).
Qed.

(* ================================================================== *)
(** ** The rename loop *)
(* ================================================================== *)

Lemma renameExisting_patchModule (st : Hotpatch) (g : GlobalValue) :
  patchModule (renameExisting st g) = patchModule st.
Proof.
  unfold renameExisting.
  destruct (String.prefix "ISEL_" (getName g)); [| reflexivity].
  now destruct (getGlobalVariable (module st) (getName g)).
Qed.

Lemma fold_renameExisting_patchModule (l : list GlobalValue) (st : Hotpatch) :
  patchModule (fold_left renameExisting l st) = patchModule st.
Proof.
  revert st. induction l as [|g l IH]; intros st; simpl; [reflexivity|].
  now rewrite IH, renameExisting_patchModule.
Qed.

(** What one iteration does, by cases. *)
Lemma renameExisting_cases (st : Hotpatch) (g : GlobalValue) :
  (renameExisting st g = st /\
   (isSelector (getName g) = false \/
    getGlobalVariable (module st) (getName g) = None)) \/
  (exists b,
     isSelector (getName g) = true /\
     getGlobalVariable (module st) (getName g) = Some b /\
     renameExisting st g =
       {| module := setName (module st) (getName g) (original (getName g));
          patchModule := patchModule st;
          log := (log st ++ [SetName (getName g) (original (getName g));
                             Outs (notice (getName g))])%list |}).
Proof.
  unfold renameExisting, isSelector.
  destruct (String.prefix "ISEL_" (getName g)) eqn:P; [| left; auto].
  destruct (getGlobalVariable (module st) (getName g)) as [b|] eqn:G;
    [| left; auto].
  right. exists b. split; [reflexivity|]. split; [reflexivity|].
  apply getGlobalVariable_Some in G. destruct G as [G _].
  now rewrite (getNamedValue_name _ _ _ G).
Qed.

Lemma renameExisting_keeps (st : Hotpatch) (g : GlobalValue) (n : string)
    (v : GlobalValue) :
  (isSelector (getName g) = true -> getName g <> n) ->
  getNamedValue (module st) n = Some v ->
  getNamedValue (module (renameExisting st g)) n = Some v.
Proof.
  intros Hne H.
  destruct (renameExisting_cases st g) as [[-> _] | (b & P & _ & ->)];
    [exact H|].
  simpl. apply setName_keeps; [| exact H].
  intros ->. now apply Hne.
Qed.

Lemma renameExisting_keeps_free (st : Hotpatch) (g : GlobalValue) (n : string) :
  getName g <> n ->
  getNamedValue (module st) (original n) = None ->
  getNamedValue (module (renameExisting st g)) (original n) = None.
Proof.
  intros Hne H.
  destruct (renameExisting_cases st g) as [[-> _] | (b & _ & _ & ->)];
    [exact H|].
  simpl. apply setName_keeps_free; [| | exact H].
  - intros E. apply original_inj in E. congruence.
  - intros k E. symmetry in E. now apply uniqueCandidate_not_original in E.
Qed.

(** The iteration for a selector the base holds as a global variable, when
    the suffixed name is free. *)
Lemma renameExisting_renames (st : Hotpatch) (g b : GlobalValue) :
  isSelector (getName g) = true ->
  getGlobalVariable (module st) (getName g) = Some b ->
  getNamedValue (module st) (original (getName g)) = None ->
  getNamedValue (module (renameExisting st g)) (original (getName g))
    = Some (withName b (original (getName g))) /\
  getNamedValue (module (renameExisting st g)) (getName g) = None /\
  log (renameExisting st g)
    = (log st ++ [SetName (getName g) (original (getName g));
                  Outs (notice (getName g))])%list.
Proof.
  intros P G F.
  destruct (renameExisting_cases st g) as [[_ [P'|G']] | (b' & _ & G' & ->)];
    try congruence.
  simpl. apply getGlobalVariable_Some in G. destruct G as [G _].
  destruct (setName_renames (module st) (getName g) (original (getName g)) b
              (original_neq _) G F) as [H1 H2].
  auto.
Qed.

Lemma resolve_keeps (l : list GlobalValue) (n : string) (v : GlobalValue) :
  forall st,
    (forall g, In g l -> isSelector (getName g) = true -> getName g <> n) ->
    getNamedValue (module st) n = Some v ->
    getNamedValue (module (fold_left renameExisting l st)) n = Some v.
Proof.
  induction l as [|g l IH]; intros st Hl H; simpl; [exact H|].
  apply IH.
  - intros g' Hg'. apply Hl. now right.
  - apply renameExisting_keeps; [| exact H]. apply Hl. now left.
Qed.

(** Loop level: the base's global variable [N] ends up under [N_original]
    when that name is free in the base and names no global of the patch. *)
Lemma resolve_renames (l : list GlobalValue) (N : string) (bv : GlobalValue) :
  forall st,
    isSelector N = true ->
    In N (map getName l) ->
    ~ In (original N) (map getName l) ->
    getGlobalVariable (module st) N = Some bv ->
    getNamedValue (module st) (original N) = None ->
    getNamedValue (module (fold_left renameExisting l st)) (original N)
      = Some (withName bv (original N)).
Proof.
  induction l as [|g l IH]; intros st P Hin Hout G F; simpl.
  - destruct Hin.
  - assert (Hl : ~ In (original N) (map getName l))
      by (intros X; apply Hout; now right).
    destruct (String.eqb_spec (getName g) N) as [E | E].
    + subst N. apply resolve_keeps.
      * intros g' Hg' _ X. apply Hl. rewrite <- X. now apply in_map.
      * now apply (renameExisting_renames st g bv).
    + apply IH; try assumption.
      * destruct Hin as [X | X]; [congruence | exact X].
      * apply getGlobalVariable_Some in G. destruct G as [G K].
        apply getGlobalVariable_Some. split; [| exact K].
        apply renameExisting_keeps; [| exact G]. intros _. exact E.
      * now apply renameExisting_keeps_free.
Qed.

(** Every event of the loop is a [setName] on a selector or a notice. *)
Lemma resolve_log (l : list GlobalValue) :
  forall st, exists renames,
    log (fold_left renameExisting l st) = (log st ++ renames)%list /\
    Forall isRenameEvent renames /\
    (forall old req, In (SetName old req) renames -> isSelector old = true).
Proof.
  induction l as [|g l IH]; intros st; simpl.
  - exists []. rewrite app_nil_r. repeat split; [constructor | intros ? ? []].
  - destruct (IH (renameExisting st g)) as (rs & E & F & S). rewrite E.
    destruct (renameExisting_cases st g) as [[-> _] | (b & P & _ & ->)].
    + exists rs. auto.
    + simpl. rewrite <- app_assoc. eexists. split; [reflexivity|]. split.
      * simpl. repeat constructor. exact F.
      * intros old req [X | [X | X]]; try discriminate.
        -- injection X as <- _. exact P.
        -- eauto.
Qed.

(* ================================================================== *)
(** ** The merge *)
(* ================================================================== *)

Lemma find_app_hasName (n : string) (l1 l2 : list GlobalValue) :
  find (hasName n) (l1 ++ l2) =
  match find (hasName n) l1 with
  | Some v => Some v
  | None => find (hasName n) l2
  end.
Proof.
  induction l1 as [|v l1 IH]; simpl; [reflexivity|].
  now destruct (hasName n v).
Qed.

Lemma find_erase_other (n x : string) (l : list GlobalValue) :
  n <> x ->
  find (hasName n) (filter (fun v => negb (hasName x v)) l)
  = find (hasName n) l.
Proof.
  intros Hne. induction l as [|v l IH]; simpl; [reflexivity|].
  destruct (hasName x v) eqn:Ex; simpl.
  - apply hasName_true in Ex.
    assert (hasName n v = false) as -> by (apply hasName_false; congruence).
    exact IH.
  - destruct (hasName n v); [reflexivity | exact IH].
Qed.

Lemma find_erase_gone (x : string) (l : list GlobalValue) :
  find (hasName x) (filter (fun v => negb (hasName x v)) l) = None.
Proof.
  induction l as [|v l IH]; simpl; [reflexivity|].
  destruct (hasName x v) eqn:Ex; simpl; [exact IH | now rewrite Ex].
Qed.

Lemma linkGlobalValue_other (dst : IRModule) (sgv : GlobalValue) (n : string) :
  getName sgv <> n ->
  getNamedValue (linkGlobalValue dst sgv) n = getNamedValue dst n.
Proof.
  intros Hne. unfold getNamedValue, linkGlobalValue. simpl.
  rewrite find_app_hasName, find_erase_other by congruence. simpl.
  assert (hasName n sgv = false) as -> by now apply hasName_false.
  now destruct (find (hasName n) (SymTab dst)).
Qed.

Lemma linkGlobalValue_hit (dst : IRModule) (sgv : GlobalValue) :
  getNamedValue (linkGlobalValue dst sgv) (getName sgv) = Some sgv.
Proof.
  unfold getNamedValue, linkGlobalValue. simpl.
  rewrite find_app_hasName, find_erase_gone. simpl.
  assert (hasName (getName sgv) sgv = true) as ->
    by now apply hasName_true.
  reflexivity.
Qed.

Lemma link_fold_other (l : list GlobalValue) (n : string) :
  forall dst,
    ~ In n (map getName l) ->
    getNamedValue (fold_left linkGlobalValue l dst) n = getNamedValue dst n.
Proof.
  induction l as [|s l IH]; intros dst Hn; simpl; [reflexivity|].
  rewrite IH by (intros X; apply Hn; now right).
  apply linkGlobalValue_other. intros E. apply Hn. now left.
Qed.

Lemma link_fold_hit (l : list GlobalValue) (s : GlobalValue) :
  forall dst,
    NoDup (map getName l) -> In s l ->
    getNamedValue (fold_left linkGlobalValue l dst) (getName s) = Some s.
Proof.
  induction l as [|a l IH]; intros dst Hnd Hin; simpl; [destruct Hin|].
  simpl in Hnd. apply NoDup_cons_iff in Hnd. destruct Hnd as [Ha Hnd].
  destruct Hin as [-> | Hin].
  - rewrite link_fold_other by exact Ha. apply linkGlobalValue_hit.
  - now apply IH.
Qed.

Lemma unique_by_name (l : list GlobalValue) (a b : GlobalValue) :
  NoDup (map getName l) -> In a l -> In b l -> getName a = getName b -> a = b.
Proof.
  induction l as [|x l IH]; intros Hnd Ha Hb E; [destruct Ha|].
  simpl in Hnd. apply NoDup_cons_iff in Hnd. destruct Hnd as [Hx Hnd].
  destruct Ha as [-> | Ha], Hb as [-> | Hb]; auto.
  - exfalso. apply Hx. rewrite E. now apply in_map.
  - exfalso. apply Hx. rewrite <- E. now apply in_map.
Qed.

Lemma NoDup_names_filter (f : GlobalValue -> bool) (l : list GlobalValue) :
  NoDup (map getName l) -> NoDup (map getName (filter f l)).
Proof.
  induction l as [|x l IH]; simpl; intros Hnd; [constructor|].
  apply NoDup_cons_iff in Hnd. destruct Hnd as [Hx Hnd].
  destruct (f x); simpl; [| auto].
  constructor; [| auto].
  intros X. apply Hx. apply in_map_iff in X. destruct X as (y & E & Hy).
  apply filter_In in Hy. rewrite <- E. apply in_map. tauto.
Qed.

Lemma valuesToLink_In (src : IRModule) (s : GlobalValue) :
  In s (valuesToLink src) <-> In s (SymTab src).
Proof.
  unfold valuesToLink, globals, functions.
  rewrite in_app_iff, !filter_In. split; [tauto|].
  intros H. unfold isGlobalVariable, isFunction.
  destruct (getKind s); simpl; tauto.
Qed.

Lemma valuesToLink_NoDup (src : IRModule) :
  uniqueNames src -> NoDup (map getName (valuesToLink src)).
Proof.
  unfold uniqueNames, names, valuesToLink, globals, functions. intros Hnd.
  rewrite map_app. apply NoDup_app; try now apply NoDup_names_filter.
  intros n Hg Hf.
  apply in_map_iff in Hg. destruct Hg as (a & Ea & Ha).
  apply in_map_iff in Hf. destruct Hf as (b & Eb & Hb).
  apply filter_In in Ha. destruct Ha as [Ha Ka].
  apply filter_In in Hb. destruct Hb as [Hb Kb].
  assert (a = b) by (apply (unique_by_name (SymTab src)); congruence).
  subst b. unfold isGlobalVariable, isFunction in *.
  destruct (getKind a); discriminate.
Qed.

(** Override from source: after a completed merge every name of the source
    resolves to the source's value, and every other name is as it was. *)
Lemma linkInto_hit (dst src : IRModule) (s : GlobalValue) :
  uniqueNames src -> In s (SymTab src) ->
  getNamedValue (linkInto dst src) (getName s) = Some s.
Proof.
  intros Hnd Hin. unfold linkInto. apply link_fold_hit.
  - now apply valuesToLink_NoDup.
  - now apply valuesToLink_In.
Qed.

Lemma firstn_In (k : nat) (l : list GlobalValue) (v : GlobalValue) :
  In v (firstn k l) -> In v l.
Proof.
  revert l. induction k as [|k IH]; intros [|a l]; simpl; try tauto.
  intros [-> | H]; [now left | right; auto].
Qed.

(** A merge that stops early still leaves alone every name the source does
    not define. *)
Lemma linkPartially_other (moved : nat) (dst src : IRModule) (n : string) :
  ~ In n (names src) ->
  getNamedValue (linkPartially moved dst src) n = getNamedValue dst n.
Proof.
  intros Hn. unfold linkPartially. apply link_fold_other.
  intros X. apply Hn. apply in_map_iff in X. destruct X as (v & E & Hv).
  apply firstn_In in Hv. apply valuesToLink_In in Hv.
  unfold names. rewrite <- E. now apply in_map.
Qed.

Lemma linkInto_other (dst src : IRModule) (n : string) :
  ~ In n (names src) ->
  getNamedValue (linkInto dst src) n = getNamedValue dst n.
Proof.
  intros Hn. unfold linkInto. apply link_fold_other.
  intros X. apply Hn. apply in_map_iff in X. destruct X as (v & E & Hv).
  apply valuesToLink_In in Hv. unfold names. rewrite <- E. now apply in_map.
Qed.

(* ================================================================== *)
(** ** The loop and the log *)
(* ================================================================== *)

Lemma withLog_self (st : Hotpatch) : withLog st (log st) = st.
Proof. now destruct st. Qed.

(** What an iteration does to the module does not depend on the log, and
    what it adds to the log does not depend on what the log held. *)
Lemma renameExisting_withLog (st : Hotpatch) (g : GlobalValue)
    (events : list Event) :
  renameExisting (withLog st events) g
  = withLog (renameExisting (withLog st []) g)
      (events ++ log (renameExisting (withLog st []) g)).
Proof.
  unfold renameExisting. simpl.
  destruct (String.prefix "ISEL_" (getName g)).
  - destruct (getGlobalVariable (module st) (getName g)); unfold withLog;
      simpl; now rewrite ?app_nil_r.
  - unfold withLog. simpl. now rewrite app_nil_r.
Qed.

Lemma resolve_withLog (l : list GlobalValue) :
  forall (st : Hotpatch) (events : list Event),
    fold_left renameExisting l (withLog st events)
    = withLog (fold_left renameExisting l (withLog st []))
        (events ++ log (fold_left renameExisting l (withLog st []))).
Proof.
  induction l as [|g l IH]; intros st events; simpl.
  - unfold withLog. simpl. now rewrite app_nil_r.
  - rewrite (renameExisting_withLog st g events).
    set (s1 := renameExisting (withLog st []) g).
    assert (H : fold_left renameExisting l s1
                = withLog (fold_left renameExisting l (withLog s1 []))
                    (log s1
                     ++ log (fold_left renameExisting l (withLog s1 [])))).
    { rewrite <- (withLog_self s1) at 1. apply IH. }
    rewrite (IH s1 (events ++ log s1)%list), H.
    unfold withLog. simpl. now rewrite <- app_assoc.
Qed.

Lemma resolve_log_grows (l : list GlobalValue) (st : Hotpatch) (e : Event) :
  In e (log st) -> In e (log (fold_left renameExisting l st)).
Proof.
  intros H. destruct (resolve_log l st) as (rs & -> & _).
  apply in_or_app. now left.
Qed.

(** Loop level: the renaming of [resolve_renames] is in the log. *)
Lemma resolve_renames_logged (l : list GlobalValue) (N : string)
    (bv : GlobalValue) :
  forall st,
    isSelector N = true ->
    In N (map getName l) ->
    getGlobalVariable (module st) N = Some bv ->
    In (SetName N (original N)) (log (fold_left renameExisting l st)).
Proof.
  induction l as [|g l IH]; intros st P Hin G; simpl; [destruct Hin|].
  destruct (String.eqb_spec (getName g) N) as [E | E].
  - apply resolve_log_grows.
    destruct (renameExisting_cases st g)
      as [[_ [X | X]] | (b & _ & _ & ->)]; try congruence.
    simpl. rewrite E. apply in_or_app. right. now left.
  - apply IH; try assumption.
    + destruct Hin as [X | X]; [congruence | exact X].
    + apply getGlobalVariable_Some in G. destruct G as [G K].
      apply getGlobalVariable_Some. split; [| exact K].
      apply renameExisting_keeps; [| exact G]. intros _. exact E.
Qed.

(* ================================================================== *)
(** ** Properties of hotpatchRemill *)
(* ================================================================== *)

Section Hotpatch_properties.

Variable LinkError : IRModule -> IRModule -> option nat.

Lemma exists_parse (fs : FileSystem) (path : string) (content : File) :
  fs path = Some content ->
  exists_ fs path = true /\ parseIRFile fs path = content.
Proof. unfold exists_, parseIRFile. now intros ->. Qed.

(** The call on a file that parses, spelled out. *)
Lemma hotpatchRemill_parsed (fs : FileSystem) (base patch : IRModule)
    (path : string) :
  fs path = Some (inr patch) ->
  hotpatchRemill LinkError fs base path =
  let st := resolveCollisions (adjustTarget (loaded base patch path)) in
  match LinkError (module st) (patchModule st) with
  | Some moved =>
      (false, linkPartially moved (module st) (patchModule st),
       (log st ++ [LinkModules true;
                   Errs ("Failed to link hotpatch module" ++ nl)%string])%list)
  | None =>
      (true, linkInto (module st) (patchModule st),
       (log st ++ [LinkModules false])%list)
  end.
Proof.
  intros H. unfold hotpatchRemill, linkModules.
  destruct (exists_parse fs path _ H) as [-> ->]. simpl.
  now destruct (LinkError _ _).
Qed.

Lemma resolved_patch (base patch : IRModule) (path : string) :
  SymTab
    (patchModule (resolveCollisions (adjustTarget (loaded base patch path))))
  = SymTab patch.
Proof.
  unfold resolveCollisions. now rewrite fold_renameExisting_patchModule.
Qed.

Lemma resolved_log (base patch : IRModule) (path : string) :
  exists renames,
    log (resolveCollisions (adjustTarget (loaded base patch path)))
    = ([FsExists path true; ParseIRFile path true;
        SetDataLayout (getDataLayout base);
        SetTargetTriple (getTargetTriple base)] ++ renames)%list /\
    Forall isRenameEvent renames /\
    (forall old req, In (SetName old req) renames -> isSelector old = true).
Proof.
  unfold resolveCollisions.
  destruct (resolve_log
              (globals (patchModule (adjustTarget (loaded base patch path))))
              (adjustTarget (loaded base patch path))) as (rs & E & F & S).
  exists rs. split; [exact E | auto].
Qed.

(** C2 (P4, Scenario B).  When the path does not exist the call returns
    false, the semantics module is returned as it was passed, and the only
    events are the existence test and the message on the error stream: no
    [setName], no [setDataLayout] or [setTargetTriple], no call of the
    linker. *)
Theorem hotpatch_missing_file (fs : FileSystem) (base : IRModule)
    (path : string) :
  exists_ fs path = false ->
  hotpatchRemill LinkError fs base path
  = (false, base, [FsExists path false; Errs (notFoundMessage path)]).
Proof.
  intros H. unfold hotpatchRemill. now rewrite H.
Qed.

(** C4 (P3).  After lines 57-58 the patch module's data layout and target
    triple are the semantics module's, whatever the two were before; the
    step leaves the semantics module, and the symbols of the patch, as they
    were. *)
Theorem adjustTarget_conforms (st : Hotpatch) :
  getDataLayout (patchModule (adjustTarget st)) = getDataLayout (module st) /\
  getTargetTriple (patchModule (adjustTarget st))
    = getTargetTriple (module st) /\
  module (adjustTarget st) = module st /\
  SymTab (patchModule (adjustTarget st)) = SymTab (patchModule st).
Proof. repeat split. Qed.

Lemma renameExisting_metadata (st : Hotpatch) (g : GlobalValue) :
  getDataLayout (module (renameExisting st g)) = getDataLayout (module st) /\
  getTargetTriple (module (renameExisting st g)) = getTargetTriple (module st).
Proof.
  destruct (renameExisting_cases st g) as [[-> _] | (b & _ & _ & ->)];
    [now split|].
  simpl. apply setName_metadata.
Qed.

Lemma resolve_metadata (l : list GlobalValue) :
  forall st,
    getDataLayout (module (fold_left renameExisting l st))
      = getDataLayout (module st) /\
    getTargetTriple (module (fold_left renameExisting l st))
      = getTargetTriple (module st).
Proof.
  induction l as [|g l IH]; intros st; simpl; [now split|].
  destruct (IH (renameExisting st g)) as [-> ->].
  apply renameExisting_metadata.
Qed.

(** I2: when the linker is called, the two modules carry the same target
    metadata. *)
Lemma link_time_metadata (base patch : IRModule) (path : string) :
  getDataLayout
    (patchModule (resolveCollisions (adjustTarget (loaded base patch path))))
  = getDataLayout
      (module (resolveCollisions (adjustTarget (loaded base patch path)))) /\
  getTargetTriple
    (patchModule (resolveCollisions (adjustTarget (loaded base patch path))))
  = getTargetTriple
      (module (resolveCollisions (adjustTarget (loaded base patch path)))).
Proof.
  unfold resolveCollisions. rewrite fold_renameExisting_patchModule.
  destruct (resolve_metadata
              (globals (patchModule (adjustTarget (loaded base patch path))))
              (adjustTarget (loaded base patch path))) as [-> ->].
  now split.
Qed.

(** One iteration, for a selector of the patch, on a semantics module that
    holds no symbol of that name when the name is looked up (lines 67-68):
    the module, the patch and the output are left as they were. *)
Lemma renameExisting_absent (st : Hotpatch) (g : GlobalValue) :
  isSelector (getName g) = true ->
  getNamedValue (module st) (getName g) = None ->
  renameExisting st g = st.
Proof.
  intros _ H.
  destruct (renameExisting_cases st g) as [[E _] | (b & _ & G & _)];
    [exact E|].
  apply getGlobalVariable_Some in G. destruct G as [G _]. congruence.
Qed.

(** The same for the whole loop: a semantics module that holds none of the
    patch's selectors as a global variable comes out of the loop unchanged. *)
Lemma resolveCollisions_no_collision (st : Hotpatch) :
  (forall g, In g (globals (patchModule st)) ->
             isSelector (getName g) = true ->
             getGlobalVariable (module st) (getName g) = None) ->
  resolveCollisions st = st.
Proof.
  unfold resolveCollisions.
  induction (globals (patchModule st)) as [|g l IH]; intros H; simpl;
    [reflexivity|].
  assert (renameExisting st g = st) as ->.
  { destruct (renameExisting_cases st g) as [[E _] | (b & P & G & _)];
      [exact E|].
    rewrite (H g (or_introl eq_refl) P) in G. discriminate. }
  apply IH. intros g' Hg'. apply H. now right.
Qed.

Lemma globals_names (patch : IRModule) (N : string) (pv : GlobalValue) :
  getGlobalVariable patch N = Some pv ->
  In pv (SymTab patch) /\ In N (map getName (globals patch)).
Proof.
  intros G. apply getGlobalVariable_Some in G. destruct G as [G K].
  pose proof (getNamedValue_name _ _ _ G) as E.
  unfold getNamedValue in G. apply find_some in G. destruct G as [G _].
  split; [exact G|]. rewrite <- E. apply in_map.
  unfold globals. apply filter_In. auto.
Qed.

Lemma globals_names_free (patch : IRModule) (n : string) :
  getNamedValue patch n = None -> ~ In n (map getName (globals patch)).
Proof.
  intros F X. apply getNamedValue_None in F. apply F.
  apply in_map_iff in X. destruct X as (v & E & Hv).
  unfold globals in Hv. apply filter_In in Hv.
  unfold names. rewrite <- E. apply in_map. tauto.
Qed.

(** The rename loop of a call, for one selector: the global variable the
    semantics module held under [N] is found under [N_original] when the
    loop ends, provided that name was free in the semantics module and names
    nothing in the patch. *)
Lemma resolved_renames (base patch : IRModule) (path N : string)
    (pv bv : GlobalValue) :
  isSelector N = true ->
  getGlobalVariable patch N = Some pv ->
  getGlobalVariable base N = Some bv ->
  getNamedValue base (original N) = None ->
  getNamedValue patch (original N) = None ->
  getNamedValue
    (module (resolveCollisions (adjustTarget (loaded base patch path))))
    (original N)
  = Some (withName bv (original N)).
Proof.
  intros P Gp Gb Fb Fp. unfold resolveCollisions.
  apply resolve_renames; try assumption.
  - apply (globals_names patch N pv Gp).
  - apply (globals_names_free patch _ Fp).
Qed.

(** C1 (P2, I4), amended.  Let [N] be a selector name under which both the
    patch and the semantics module hold a global variable, and let
    [N_original] be free in the semantics module and name nothing in the
    patch.  After a call that returns true, [N] resolves in the semantics
    module to the patch's value and [N_original] to the value the semantics
    module held under [N] before the call. *)
Theorem hotpatch_override_precedence (fs : FileSystem)
    (base patch m' : IRModule) (path : string) (events : list Event)
    (N : string) (pv bv : GlobalValue) :
  uniqueNames patch ->
  fs path = Some (inr patch) ->
  isSelector N = true ->
  getGlobalVariable patch N = Some pv ->
  getGlobalVariable base N = Some bv ->
  getNamedValue base (original N) = None ->
  getNamedValue patch (original N) = None ->
  hotpatchRemill LinkError fs base path = (true, m', events) ->
  getNamedValue m' N = Some pv /\
  getNamedValue m' (original N) = Some (withName bv (original N)).
Proof.
  intros U Hfs P Gp Gb Fb Fp Hrun.
  rewrite (hotpatchRemill_parsed fs base patch path Hfs) in Hrun.
  cbv zeta in Hrun.
  pose proof (resolved_patch base patch path) as Hp.
  destruct (LinkError _ _) as [moved|]; [discriminate|].
  injection Hrun as <- _. split.
  - destruct (globals_names patch N pv Gp) as [Hin _].
    apply getGlobalVariable_Some in Gp. destruct Gp as [Gp _].
    rewrite <- (getNamedValue_name _ _ _ Gp).
    apply linkInto_hit.
    + unfold uniqueNames, names. now rewrite Hp.
    + now rewrite Hp.
  - rewrite linkInto_other.
    + now apply (resolved_renames base patch path N pv bv).
    + unfold names. rewrite Hp. now apply getNamedValue_None.
Qed.

(** C3 (section 4.3), amended.  The loop visits every global variable of the
    patch, and no function: for a global variable [g] of the patch named
    with the prefix, the loop splits into the iterations before [g], the
    iteration for [g] and the iterations after it.  If, when [g] is reached,
    the semantics module holds a global variable under that name and the
    suffixed name is free, the iteration leaves that variable under the
    suffixed name, frees the old name, and writes the [setName] and the
    notice naming [g] to the log. *)
Theorem resolver_renames_global_variables (st : Hotpatch) (g : GlobalValue) :
  In g (globals (patchModule st)) ->
  isSelector (getName g) = true ->
  exists before after,
    globals (patchModule st) = (before ++ g :: after)%list /\
    resolveCollisions st
    = fold_left renameExisting after
        (renameExisting (fold_left renameExisting before st) g) /\
    forall b,
      getGlobalVariable (module (fold_left renameExisting before st))
        (getName g) = Some b ->
      getNamedValue (module (fold_left renameExisting before st))
        (original (getName g)) = None ->
      getNamedValue
        (module (renameExisting (fold_left renameExisting before st) g))
        (original (getName g))
      = Some (withName b (original (getName g))) /\
      getNamedValue
        (module (renameExisting (fold_left renameExisting before st) g))
        (getName g) = None /\
      log (renameExisting (fold_left renameExisting before st) g)
      = (log (fold_left renameExisting before st)
         ++ [SetName (getName g) (original (getName g));
             Outs (notice (getName g))])%list.
Proof.
  intros Hin P. destruct (in_split _ _ Hin) as (before & after & E).
  exists before, after. split; [exact E|]. split.
  - unfold resolveCollisions. rewrite E, fold_left_app. reflexivity.
  - intros b G F. now apply renameExisting_renames.
Qed.

(** C5 (P5).  For a symbol [s] of the patch whose name lacks the prefix: its
    iteration of the loop, if it has one, changes nothing; the call never
    applies [setName] to a symbol of that name; a symbol the semantics module
    holds under that name is still there under that name when the loop
    ends; and after a call that returns true the name resolves to [s], the
    patch's definition. *)
Theorem non_selector_passthrough (fs : FileSystem)
    (base patch m' : IRModule) (path : string) (events : list Event)
    (s : GlobalValue) :
  uniqueNames patch ->
  fs path = Some (inr patch) ->
  In s (SymTab patch) ->
  isSelector (getName s) = false ->
  hotpatchRemill LinkError fs base path = (true, m', events) ->
  (forall st, renameExisting st s = st) /\
  (forall requested, ~ In (SetName (getName s) requested) events) /\
  (forall b,
     getNamedValue base (getName s) = Some b ->
     getNamedValue
       (module (resolveCollisions (adjustTarget (loaded base patch path))))
       (getName s) = Some b) /\
  getNamedValue m' (getName s) = Some s.
Proof.
  intros U Hfs Hin P Hrun.
  rewrite (hotpatchRemill_parsed fs base patch path Hfs) in Hrun.
  cbv zeta in Hrun.
  pose proof (resolved_patch base patch path) as Hp.
  destruct (resolved_log base patch path) as (rs & L & _ & S).
  destruct (LinkError _ _) as [moved|]; [discriminate|].
  injection Hrun as <- <-. repeat split.
  - intros st.
    destruct (renameExisting_cases st s) as [[E _] | (b & P' & _)];
      [exact E | congruence].
  - intros requested X. rewrite L in X.
    apply in_app_or in X. destruct X as [X | X].
    + apply in_app_or in X. destruct X as [X | X].
      * simpl in X. intuition discriminate.
      * apply S in X. congruence.
    + simpl in X. intuition discriminate.
  - intros b Hb. unfold resolveCollisions. apply resolve_keeps; [| exact Hb].
    intros g _ Pg E. rewrite E in Pg. congruence.
  - apply linkInto_hit.
    + unfold uniqueNames, names. now rewrite Hp.
    + now rewrite Hp.
Qed.

(** C6 (section 4.4, Scenario C), amended.  When the linker reports an error
    the call returns false, and after the call of the linker the only
    further event is the message on the error stream: no [setName] undoes a
    rename.  The semantics module the call leaves is the one the rename loop
    produced, plus whatever the linker had moved in before it failed: every
    name the patch does not define resolves as it did when the loop ended,
    so a global variable the loop moved from [N] to [N_original] is still
    found under [N_original] when the patch defines no [N_original]. *)
Theorem link_failure_keeps_renames (fs : FileSystem) (base patch : IRModule)
    (path : string) (moved : nat) :
  fs path = Some (inr patch) ->
  LinkError
    (module (resolveCollisions (adjustTarget (loaded base patch path))))
    (patchModule (resolveCollisions (adjustTarget (loaded base patch path))))
  = Some moved ->
  exists renamed final,
    renamed
    = module (resolveCollisions (adjustTarget (loaded base patch path))) /\
    hotpatchRemill LinkError fs base path
    = (false, final,
       (log (resolveCollisions (adjustTarget (loaded base patch path)))
        ++ [LinkModules true;
            Errs ("Failed to link hotpatch module" ++ nl)%string])%list) /\
    (forall n,
       getNamedValue patch n = None ->
       getNamedValue final n = getNamedValue renamed n) /\
    (forall N pv bv,
       isSelector N = true ->
       getGlobalVariable patch N = Some pv ->
       getGlobalVariable base N = Some bv ->
       getNamedValue base (original N) = None ->
       getNamedValue patch (original N) = None ->
       getNamedValue final (original N) = Some (withName bv (original N))).
Proof.
  intros Hfs Hfail.
  rewrite (hotpatchRemill_parsed fs base patch path Hfs). cbv zeta.
  rewrite Hfail.
  pose proof (resolved_patch base patch path) as Hp.
  assert (Hframe : forall n,
             getNamedValue patch n = None ->
             getNamedValue
               (linkPartially moved
                  (module (resolveCollisions
                             (adjustTarget (loaded base patch path))))
                  (patchModule (resolveCollisions
                                  (adjustTarget (loaded base patch path)))))
               n
             = getNamedValue
                 (module (resolveCollisions
                            (adjustTarget (loaded base patch path)))) n).
  { intros n F. apply linkPartially_other.
    unfold names. rewrite Hp. now apply getNamedValue_None. }
  eexists. eexists. split; [reflexivity|]. split; [reflexivity|].
  split; [exact Hframe|].
  intros N pv bv P Gp Gb Fb Fp. rewrite (Hframe _ Fp).
  now apply (resolved_renames base patch path N pv bv).
Qed.

(** C8 (section 4.5).  A call, by what the file system holds at the path.
    No file: the existence test, then the message, and false.  A file that
    does not parse: the test, the parse, then the message, and false; the
    semantics module is returned untouched, with no metadata write, no
    rename and no call of the linker.  A file that parses: the four steps
    run in order, each on what the step before left.  The conformance step
    runs on the patch as parsed and gives it the semantics module's layout
    and triple; the rename loop runs on the semantics module as passed, over
    the globals of the conformed patch, and moves a colliding selector to
    its suffixed name; the linker is called once, on the renamed semantics
    module and the conformed patch, and when it completes every symbol of
    the patch is in place; the events are the test, the parse, the two
    metadata writes, the events of the loop and the call of the linker, in
    that order; and the flag returned is false exactly when the linker
    reports an error. *)
Theorem hotpatch_sequence (fs : FileSystem) (base : IRModule) (path : string) :
  match fs path with
  | None =>
      hotpatchRemill LinkError fs base path
      = (false, base, [FsExists path false; Errs (notFoundMessage path)])
  | Some (inl diagnostic) =>
      hotpatchRemill LinkError fs base path
      = (false, base,
         [FsExists path true; ParseIRFile path false;
          Errs ("Failed to parse hotpatch module: " ++ diagnostic ++ nl)])
  | Some (inr patch) =>
      exists (conformed renamed base' : IRModule) (renames : list Event)
             (failed : bool),
        conformed
        = setTargetTriple (setDataLayout patch (getDataLayout base))
            (getTargetTriple base) /\
        getDataLayout conformed = getDataLayout base /\
        getTargetTriple conformed = getTargetTriple base /\
        SymTab conformed = SymTab patch /\
        renamed
        = module (fold_left renameExisting (globals conformed)
                    {| module := base; patchModule := conformed; log := [] |})
        /\
        renames
        = log (fold_left renameExisting (globals conformed)
                 {| module := base; patchModule := conformed; log := [] |})
        /\
        (forall N pv bv,
           isSelector N = true ->
           getGlobalVariable patch N = Some pv ->
           getGlobalVariable base N = Some bv ->
           getNamedValue base (original N) = None ->
           getNamedValue patch (original N) = None ->
           getNamedValue renamed (original N)
             = Some (withName bv (original N)) /\
           In (SetName N (original N)) renames) /\
        linkModules LinkError renamed conformed = (failed, base') /\
        (failed = false -> uniqueNames patch ->
         forall s, In s (SymTab patch) ->
                   getNamedValue base' (getName s) = Some s) /\
        (forall n, getNamedValue patch n = None ->
                   getNamedValue base' n = getNamedValue renamed n) /\
        hotpatchRemill LinkError fs base path
        = (negb failed, base',
           ([FsExists path true; ParseIRFile path true;
             SetDataLayout (getDataLayout base);
             SetTargetTriple (getTargetTriple base)]
            ++ renames
            ++ [LinkModules failed]
            ++ (if failed
                then [Errs ("Failed to link hotpatch module" ++ nl)%string]
                else []))%list)
  end.
Proof.
  destruct (fs path) as [[diagnostic | patch] |] eqn:E.
  - unfold hotpatchRemill.
    destruct (exists_parse fs path _ E) as [-> ->]. reflexivity.
  - set (conformed := setTargetTriple (setDataLayout patch (getDataLayout base))
                        (getTargetTriple base)).
    set (st0 := {| module := base; patchModule := conformed; log := [] |}).
    set (pre := [FsExists path true; ParseIRFile path true;
                 SetDataLayout (getDataLayout base);
                 SetTargetTriple (getTargetTriple base)]).
    assert (Hst : resolveCollisions (adjustTarget (loaded base patch path))
                  = withLog (fold_left renameExisting (globals conformed) st0)
                      (pre ++ log (fold_left renameExisting
                                     (globals conformed) st0))).
    { unfold resolveCollisions.
      change (adjustTarget (loaded base patch path)) with (withLog st0 pre).
      change (patchModule (withLog st0 pre)) with conformed.
      rewrite (resolve_withLog (globals conformed) st0 pre). reflexivity. }
    assert (Hpm : patchModule (fold_left renameExisting (globals conformed) st0)
                  = conformed)
      by apply fold_renameExisting_patchModule.
    rewrite (hotpatchRemill_parsed fs base patch path E). cbv zeta.
    rewrite Hst. simpl module. simpl patchModule. simpl log. rewrite Hpm.
    set (renamed := module (fold_left renameExisting (globals conformed) st0)).
    set (renames := log (fold_left renameExisting (globals conformed) st0)).
    assert (Hn : forall n, getNamedValue patch n = None ->
                           ~ In n (names conformed)).
    { intros n F. now apply getNamedValue_None. }
    assert (Hren : forall N pv bv,
               isSelector N = true ->
               getGlobalVariable patch N = Some pv ->
               getGlobalVariable base N = Some bv ->
               getNamedValue base (original N) = None ->
               getNamedValue patch (original N) = None ->
               getNamedValue renamed (original N)
                 = Some (withName bv (original N)) /\
               In (SetName N (original N)) renames).
    { intros N pv bv P Gp Gb Fb Fp.
      destruct (globals_names patch N pv Gp) as [_ Hin]. split.
      - apply resolve_renames; try assumption.
        apply (globals_names_free patch _ Fp).
      - now apply (resolve_renames_logged (globals conformed) N bv st0). }
    exists conformed, renamed.
    unfold linkModules.
    destruct (LinkError renamed conformed) as [moved|].
    + exists (linkPartially moved renamed conformed), renames, true.
      do 6 (split; [reflexivity|]). split; [exact Hren|].
      split; [reflexivity|]. split; [discriminate|]. split.
      * intros n F. apply linkPartially_other. now apply Hn.
      * unfold pre. simpl. reflexivity.
    + exists (linkInto renamed conformed), renames, false.
      do 6 (split; [reflexivity|]). split; [exact Hren|].
      split; [reflexivity|]. split; [| split].
      * intros _ U s' Hs. now apply linkInto_hit.
      * intros n F. apply linkInto_other. now apply Hn.
      * unfold pre. simpl. reflexivity.
  - unfold hotpatchRemill, exists_. now rewrite E.
Qed.

End Hotpatch_properties.

(* ================================================================== *)
(** ** Properties of exepath.hpp and of main *)
(* ================================================================== *)

Section Main_properties.

Variable LinkError : IRModule -> IRModule -> option nat.
Variable weakly_canonical : string -> string.
Variable parent_path : string -> string.
Variable path_append : string -> string -> string.
Variable liftExamples : IRModule -> nat * list string.


(** A call leaves its result in its static. *)
Lemma call_caches (c : Call) (impl : string) (s : Statics) :
  cached c (snd (call weakly_canonical parent_path c impl s))
  = Some (fst (call weakly_canonical parent_path c impl s)).
Proof.
  unfold call, executableDir, executablePath.
  destruct c; simpl.
  - destruct (executablePath_path s) eqn:E; simpl; [exact E | reflexivity].
  - destruct (executableDir_path s) eqn:E; simpl; [exact E|].
    destruct (executablePath_path s); reflexivity.
Qed.

(** An initialised static is never written again. *)
Lemma call_stable (c c' : Call) (impl r : string) (s : Statics) :
  cached c s = Some r ->
  cached c (snd (call weakly_canonical parent_path c' impl s)) = Some r.
Proof.
  unfold call, executableDir, executablePath.
  destruct c, c'; simpl; intros H.
  - now rewrite H.
  - destruct (executableDir_path s); simpl; [exact H|]. now rewrite H.
  - destruct (executablePath_path s); simpl; exact H.
  - now rewrite H.
Qed.

(** A call whose static is initialised returns the static's value. *)
Lemma call_cached (c : Call) (impl r : string) (s : Statics) :
  cached c s = Some r -> fst (call weakly_canonical parent_path c impl s) = r.
Proof.
  unfold call, executableDir, executablePath.
  destruct c; simpl; intros ->; reflexivity.
Qed.

Lemma runCalls_cons (c : Call) (impl : string) (cs : list (Call * string))
    (s : Statics) :
  runCalls weakly_canonical parent_path ((c, impl) :: cs) s
  = ((c, fst (call weakly_canonical parent_path c impl s))
       :: fst (runCalls weakly_canonical parent_path cs
                 (snd (call weakly_canonical parent_path c impl s))),
     snd (runCalls weakly_canonical parent_path cs
            (snd (call weakly_canonical parent_path c impl s)))).
Proof.
  simpl.
  destruct (call weakly_canonical parent_path c impl s) as [r s1]. simpl.
  now destruct (runCalls weakly_canonical parent_path cs s1).
Qed.

Lemma runCalls_stable (c : Call) (r : string) (cs : list (Call * string)) :
  forall s,
    cached c s = Some r ->
    cached c (snd (runCalls weakly_canonical parent_path cs s)) = Some r.
Proof.
  induction cs as [|[c' impl] cs IH]; intros s H; [exact H|].
  rewrite runCalls_cons. simpl. apply IH. now apply call_stable.
Qed.

Lemma runCalls_cached (c : Call) (r : string) (cs : list (Call * string)) :
  forall s i r',
    cached c s = Some r ->
    nth_error (fst (runCalls weakly_canonical parent_path cs s)) i
      = Some (c, r') ->
    r' = r.
Proof.
  induction cs as [|[c' impl] cs IH]; intros s i r' H Hn.
  - destruct i; discriminate.
  - rewrite runCalls_cons in Hn. simpl in Hn. destruct i as [|i]; simpl in Hn.
    + injection Hn as -> <-. now apply call_cached.
    + apply (IH _ i r' (call_stable c c' impl r s H) Hn).
Qed.

(** C10.  In any sequence of calls of [executablePath] and [executableDir]
    within one process, from any state of the two statics and whatever the
    platform would answer at each call, two calls of the same function
    return the same path; and a second evaluation of the default patch
    location, with any such calls in between, gives the path the first
    gave. *)
Theorem executable_location_cached :
  (forall (cs : list (Call * string)) (s : Statics) (i j : nat) (c : Call)
          (r1 r2 : string),
      nth_error (fst (runCalls weakly_canonical parent_path cs s)) i
        = Some (c, r1) ->
      nth_error (fst (runCalls weakly_canonical parent_path cs s)) j
        = Some (c, r2) ->
      r1 = r2) /\
  (forall (impl1 impl2 : string) (cs : list (Call * string)) (s : Statics),
      fst (defaultHotpatchPath weakly_canonical parent_path path_append impl2
             (snd (runCalls weakly_canonical parent_path cs
                     (snd (defaultHotpatchPath weakly_canonical parent_path
                             path_append impl1 s)))))
      = fst (defaultHotpatchPath weakly_canonical parent_path path_append
               impl1 s)).
Proof.
  split.
  - induction cs as [|[c' impl] cs IH]; intros s i j c r1 r2 Hi Hj.
    + destruct i; discriminate.
    + rewrite runCalls_cons in Hi, Hj. simpl in Hi, Hj.
      destruct i as [|i], j as [|j]; simpl in Hi, Hj.
      * congruence.
      * injection Hi as -> <-. symmetry.
        apply (runCalls_cached c _ cs _ j r2 (call_caches c impl s) Hj).
      * injection Hj as -> <-.
        apply (runCalls_cached c _ cs _ i r1 (call_caches c impl s) Hi).
      * apply (IH _ i j c r1 r2 Hi Hj).
  - intros impl1 impl2 cs s.
    unfold defaultHotpatchPath.
    pose proof (call_caches CallExecutableDir impl1 s) as H.
    unfold call in H.
    destruct (executableDir weakly_canonical parent_path impl1 s)
      as [d1 s1] eqn:E1. simpl in H. simpl.
    pose proof (runCalls_stable CallExecutableDir d1 cs s1 H) as H2.
    pose proof (call_cached CallExecutableDir impl2 d1 _ H2) as H3.
    unfold call in H3.
    destruct (executableDir weakly_canonical parent_path impl2 _) as [d2 s2].
    simpl in H3. simpl. now rewrite H3.
Qed.

(** The messages [hotpatchRemill] writes when the file is there are not the
    not-found message. *)
Lemma hotpatchRemill_found (fs : FileSystem) (base : IRModule)
    (path q : string) :
  exists_ fs path = true ->
  ~ In (Errs (notFoundMessage q))
       (snd (hotpatchRemill LinkError fs base path)).
Proof.
  intros Hex X. unfold exists_ in Hex.
  destruct (fs path) as [[diagnostic | patch] |] eqn:E; [| | discriminate].
  - unfold hotpatchRemill in X.
    destruct (exists_parse fs path _ E) as [Hx Hp]. rewrite Hx, Hp in X.
    simpl in X. destruct X as [X | [X | [X | []]]]; discriminate.
  - rewrite (hotpatchRemill_parsed LinkError fs base patch path E) in X.
    cbv zeta in X.
    destruct (resolved_log base patch path) as (rs & L & F & _).
    rewrite L in X.
    assert (Hrs : ~ In (Errs (notFoundMessage q)) rs).
    { intros Y. rewrite Forall_forall in F. apply (F _ Y). }
    destruct (LinkError _ _) as [moved|]; simpl in X;
      destruct X as [X | [X | [X | [X | X]]]]; try discriminate;
      apply in_app_or in X; destruct X as [X | X]; try contradiction;
      simpl in X; intuition discriminate.
Qed.

(** C9.  [main] tests the path on the file system [fs] and
    [hotpatchRemill] tests it again on [fs'].  If the two tests agree, no
    run of [main] writes the not-found message of [hotpatchRemill]: lines
    42-45 are not reached.  And when the file is absent at [main]'s test,
    [main] does not call [hotpatchRemill] at all: it writes its own notice
    and goes on to the lifting with the semantics module as loaded. *)
Theorem not_found_branch_unreachable (fs fs' : FileSystem)
    (executable_path_impl : string) (argv : list string) (arch : bool)
    (semantics : option IRModule) :
  forall hotpatchPath,
    hotpatchPath
    = selectHotpatchPath weakly_canonical parent_path path_append
        executable_path_impl argv ->
    exists_ fs' hotpatchPath = exists_ fs hotpatchPath ->
    (forall q,
       ~ In (Errs (notFoundMessage q))
            (snd (main LinkError weakly_canonical parent_path path_append
                    liftExamples fs fs' executable_path_impl argv arch
                    semantics))) /\
    (forall semantics0,
       arch = true -> semantics = Some semantics0 ->
       exists_ fs hotpatchPath = false ->
       main LinkError weakly_canonical parent_path path_append liftExamples
         fs fs' executable_path_impl argv arch semantics
       = (fst (liftExamples semantics0),
          ([FsExists hotpatchPath false;
            Outs ("No hotpatch file found at: " ++ hotpatchPath ++ nl)%string]
           ++ map Outs (snd (liftExamples semantics0)))%list)).
Proof.
  intros path -> Hsame. unfold main.
  set (path := selectHotpatchPath weakly_canonical parent_path path_append
                 executable_path_impl argv) in *.
  split.
  - intros q X. destruct arch; simpl in X;
      [| destruct X as [X | []]; discriminate].
    destruct semantics as [semantics0|]; simpl in X;
      [| destruct X as [X | []]; discriminate].
    unfold applyHotpatch in X.
    destruct (exists_ fs path) eqn:Hex.
    + pose proof (hotpatchRemill_found fs' semantics0 path q Hsame) as Hnf.
      destruct (hotpatchRemill LinkError fs' semantics0 path)
        as [[ok semantics1] events].
      destruct (liftExamples semantics1) as [code printed]. simpl in X, Hnf.
      destruct X as [X | [X | X]]; try discriminate.
      apply in_app_or in X. destruct X as [X | X].
      * apply in_app_or in X. destruct X as [X | X]; [contradiction|].
        destruct ok; simpl in X; [destruct X | destruct X as [X | []]];
          discriminate.
      * apply in_map_iff in X. destruct X as (t & X & _). discriminate.
    + destruct (liftExamples semantics0) as [code printed]. simpl in X.
      destruct X as [X | [X | X]]; try discriminate.
      apply in_map_iff in X. destruct X as (t & X & _). discriminate.
  - intros semantics0 -> -> Hex. simpl. unfold applyHotpatch.
    rewrite Hex. now destruct (liftExamples semantics0).
Qed.

End Main_properties.

(* ================================================================== *)
(** ** The properties on the examples *)
(* ================================================================== *)

(** Scenario A: the call succeeds, the selector is rebound and the old
    binding is kept under the suffixed name. *)
Example scenario_A :
  hotpatchRemill linkSucceeds (oneFile (inr patch_A)) semantics_A "patch.bc"
  = (true, patched_A, events_A false).
Proof. reflexivity. Qed.

(** Scenario B: no file, no change. *)
Example scenario_B :
  hotpatchRemill linkSucceeds noFile semantics_A "patch.bc"
  = (false, semantics_A,
     [FsExists "patch.bc" false; Errs (notFoundMessage "patch.bc")]).
Proof. reflexivity. Qed.

(** Scenario C: the linker fails, the rename stays. *)
Example scenario_C :
  hotpatchRemill linkFails (oneFile (inr patch_A)) semantics_A "patch.bc"
  = (false, renamed_A,
     (events_A true
      ++ [Errs ("Failed to link hotpatch module" ++ nl)%string])%list).
Proof. reflexivity. Qed.

(** The same with a linker that gives up after the first value: the rename
    stays, and so does what the linker had moved. *)
Example scenario_C_late :
  hotpatchRemill linkFailsLate (oneFile (inr patch_A)) semantics_A "patch.bc"
  = (false, half_patched_A,
     (events_A true
      ++ [Errs ("Failed to link hotpatch module" ++ nl)%string])%list).
Proof. reflexivity. Qed.

(** Applying the same patch a second time: the suffixed name is taken, so
    [setName] lands on an automatically numbered name, and the suffixed name
    still resolves to the first original. *)
Example hotpatch_twice :
  let '(_, m1, _) :=
    hotpatchRemill linkSucceeds (oneFile (inr patch_A)) semantics_A
      "patch.bc" in
  let '(ok, m2, _) :=
    hotpatchRemill linkSucceeds (oneFile (inr patch_A)) m1 "patch.bc" in
  ok = true /\
  getNamedValue m2 "ISEL_CPUID_original"
    = Some (gvar "ISEL_CPUID_original" "F_old") /\
  getNamedValue m2 "ISEL_CPUID_original.1"
    = Some (gvar "ISEL_CPUID_original.1" "F_new").
Proof. repeat split. Qed.

Lemma hotpatch_override_precedence_witness :
  hotpatchRemill linkSucceeds (oneFile (inr patch_A)) semantics_A "patch.bc"
    = (true, patched_A, events_A false) /\
  getNamedValue patched_A "ISEL_CPUID" = Some (gvar "ISEL_CPUID" "F_new") /\
  getNamedValue patched_A (original "ISEL_CPUID")
    = Some (withName (gvar "ISEL_CPUID" "F_old") (original "ISEL_CPUID")).
Proof.
  split; [reflexivity|].
  apply (hotpatch_override_precedence linkSucceeds (oneFile (inr patch_A))
           semantics_A patch_A patched_A "patch.bc" (events_A false)
           "ISEL_CPUID" (gvar "ISEL_CPUID" "F_new")
           (gvar "ISEL_CPUID" "F_old"));
    try reflexivity.
  unique_names.
Defined.

(** C1 as stated fails: the patch [patch_B] defines both [ISEL_A] and
    [ISEL_A_original].  The loop moves the semantics module's [ISEL_A] to
    [ISEL_A_original] and then on to [ISEL_A_original_original]; after the
    merge [ISEL_A_original] is the patch's global, not the old [ISEL_A]. *)
Lemma override_precedence_counterexample : ~ override_precedence_as_stated.
Proof.
  intros H.
  destruct (H linkSucceeds (oneFile (inr patch_B)) semantics_B patch_B
              (snd (fst (hotpatchRemill linkSucceeds (oneFile (inr patch_B))
                           semantics_B "patch.bc")))
              "patch.bc"
              (snd (hotpatchRemill linkSucceeds (oneFile (inr patch_B))
                      semantics_B "patch.bc"))
              "ISEL_A" (gvar "ISEL_A" "A_new") (gvar "ISEL_A" "A_old"))
    as [_ X]; try reflexivity; try unique_names.
  vm_compute in X. discriminate.
Qed.

Lemma hotpatch_missing_file_witness :
  exists_ noFile "patch.bc" = false /\
  hotpatchRemill linkSucceeds noFile semantics_A "patch.bc"
  = (false, semantics_A,
     [FsExists "patch.bc" false; Errs (notFoundMessage "patch.bc")]).
Proof.
  split; [reflexivity|].
  apply (hotpatch_missing_file linkSucceeds noFile semantics_A "patch.bc").
  reflexivity.
Defined.

Lemma resolver_renames_global_variables_witness :
  In (gvar "ISEL_CPUID" "F_new")
     (globals (patchModule (loaded semantics_A patch_A "patch.bc"))) /\
  exists before after,
    globals (patchModule (loaded semantics_A patch_A "patch.bc"))
    = (before ++ gvar "ISEL_CPUID" "F_new" :: after)%list /\
    resolveCollisions (loaded semantics_A patch_A "patch.bc")
    = fold_left renameExisting after
        (renameExisting
           (fold_left renameExisting before
              (loaded semantics_A patch_A "patch.bc"))
           (gvar "ISEL_CPUID" "F_new")).
Proof.
  split; [simpl; auto|].
  destruct (resolver_renames_global_variables
              (loaded semantics_A patch_A "patch.bc")
              (gvar "ISEL_CPUID" "F_new"))
    as (before & after & E & R & _); [simpl; auto | reflexivity |].
  exists before, after. split; [exact E | exact R].
Defined.

(** C3 as stated fails: the prefixed symbol of [patch_F] is a function, the
    loop over [globals()] never reaches it, and the semantics module's
    [ISEL_F] keeps its name. *)
Lemma resolver_counterexample : ~ resolver_as_stated.
Proof.
  intros H.
  destruct (H (loaded semantics_F patch_F "patch.bc")
              (func "ISEL_F" "fn_new") (gvar "ISEL_F" "F_old"))
    as [X _]; try reflexivity; try unique_names.
  - simpl. auto.
  - vm_compute in X. discriminate.
Qed.

Lemma non_selector_passthrough_witness :
  hotpatchRemill linkSucceeds (oneFile (inr patch_H)) semantics_H "patch.bc"
    = (true, patched_H, events_H) /\
  (forall requested, ~ In (SetName "helper_table" requested) events_H) /\
  getNamedValue patched_H "helper_table" = Some (gvar "helper_table" "T_new").
Proof.
  split; [reflexivity|].
  destruct (non_selector_passthrough linkSucceeds (oneFile (inr patch_H))
              semantics_H patch_H patched_H "patch.bc" events_H
              (gvar "helper_table" "T_new"))
    as (_ & N & _ & R); try reflexivity.
  - unique_names.
  - simpl. auto.
  - split; [exact N | exact R].
Defined.

Lemma link_failure_keeps_renames_witness :
  linkFailsLate renamed_A patch_A = Some 1 /\
  exists final,
    hotpatchRemill linkFailsLate (oneFile (inr patch_A)) semantics_A "patch.bc"
    = (false, final,
       (events_A true
        ++ [Errs ("Failed to link hotpatch module" ++ nl)%string])%list) /\
    getNamedValue final (original "ISEL_CPUID")
    = Some (withName (gvar "ISEL_CPUID" "F_old") (original "ISEL_CPUID")).
Proof.
  split; [reflexivity|].
  destruct (link_failure_keeps_renames linkFailsLate (oneFile (inr patch_A))
              semantics_A patch_A "patch.bc" 1)
    as (renamed & final & _ & R & _ & K);
    [reflexivity | reflexivity |].
  exists final. split; [exact R|].
  apply (K "ISEL_CPUID" (gvar "ISEL_CPUID" "F_new")
           (gvar "ISEL_CPUID" "F_old")); reflexivity.
Defined.

Lemma not_found_branch_unreachable_witness :
  exists_ (oneFile (inr patch_A)) "patch.bc"
    = exists_ (oneFile (inr patch_A)) "patch.bc" /\
  forall q,
    ~ In (Errs (notFoundMessage q))
         (snd (main linkSucceeds canonical_example parent_example
                 append_example lift_example
                 (oneFile (inr patch_A)) (oneFile (inr patch_A))
                 "/opt/remill/bin/example" ["example"; "patch.bc"]
                 true (Some semantics_A))).
Proof.
  split; [reflexivity|].
  apply (not_found_branch_unreachable linkSucceeds canonical_example
           parent_example append_example lift_example
           (oneFile (inr patch_A)) (oneFile (inr patch_A))
           "/opt/remill/bin/example" ["example"; "patch.bc"]
           true (Some semantics_A) "patch.bc");
    reflexivity.
Defined.

(** Without the agreement of the two tests the branch is reachable: the file
    is there when [main] looks and gone when [hotpatchRemill] looks. *)
Example not_found_branch_reached :
  In (Errs (notFoundMessage "patch.bc"))
     (snd (main linkSucceeds canonical_example parent_example
             append_example lift_example
             (oneFile (inr patch_A)) noFile
             "/opt/remill/bin/example" ["example"; "patch.bc"]
             true (Some semantics_A))).
Proof. simpl. auto. Qed.

Lemma executable_location_cached_witness :
  nth_error (fst (runCalls canonical_example parent_example calls_example
                    noStatics)) 0
    = Some (CallExecutableDir, "/opt/remill/bin") /\
  nth_error (fst (runCalls canonical_example parent_example calls_example
                    noStatics)) 2
    = Some (CallExecutableDir, "/opt/remill/bin") /\
  "/opt/remill/bin" = "/opt/remill/bin".
Proof.
  split; [reflexivity|]. split; [reflexivity|].
  apply (proj1 (executable_location_cached canonical_example parent_example
                  append_example)
           calls_example noStatics 0 2 CallExecutableDir);
    reflexivity.
Defined.

(* ================================================================== *)
(** ** Further properties of hotpatchRemill *)
(* ================================================================== *)

Lemma prefix_append (p x : string) : String.prefix p (p ++ x) = true.
Proof.
  induction p as [|c p IH]; simpl; [now destruct x|].
  destruct (ascii_dec c c) as [_ | H]; [exact IH | congruence].
Qed.

Lemma setName_uniqueNames (m : IRModule) (old req : string) :
  uniqueNames m -> uniqueNames (setName m old req).
Proof.
  intros U. destruct (String.eqb_spec req old) as [-> | Hne].
  - unfold setName. now rewrite String.eqb_refl.
  - unfold uniqueNames, names. rewrite SymTab_setName by assumption.
    rewrite map_map.
    pose proof (assignedName_fresh m old req) as Hfresh.
    set (a := fst (assignedName m old req)) in *.
    assert (Hother : forall y, In y (SymTab m) -> hasName old y = false ->
                               getName y <> a).
    { intros y Hy Ey E. apply Hfresh. rewrite <- E.
      apply otherNames_In; [now apply in_map | now apply hasName_false]. }
    apply NoDup_map_NoDup_ForallPairs;
      [| apply (NoDup_map_inv getName); exact U].
    intros x y Hx Hy E.
    destruct (hasName old x) eqn:Ex, (hasName old y) eqn:Ey.
    + apply hasName_true in Ex, Ey.
      apply (unique_by_name (SymTab m)); [exact U | | | congruence]; assumption.
    + rewrite (renameValue_hit old a x Ex), (renameValue_miss old a y Ey) in E.
      simpl in E. symmetry in E. now apply Hother in E.
    + rewrite (renameValue_miss old a x Ex), (renameValue_hit old a y Ey) in E.
      simpl in E. now apply Hother in E.
    + rewrite (renameValue_miss old a x Ex), (renameValue_miss old a y Ey) in E.
      apply (unique_by_name (SymTab m)); assumption.
Qed.

Lemma resolve_uniqueNames (l : list GlobalValue) :
  forall st,
    uniqueNames (module st) ->
    uniqueNames (module (fold_left renameExisting l st)).
Proof.
  induction l as [|g l IH]; intros st U; simpl; [exact U|].
  apply IH.
  destruct (renameExisting_cases st g) as [[-> _] | (b & _ & _ & ->)];
    [exact U|].
  simpl. now apply setName_uniqueNames.
Qed.

Lemma linkGlobalValue_uniqueNames (dst : IRModule) (sgv : GlobalValue) :
  uniqueNames dst -> uniqueNames (linkGlobalValue dst sgv).
Proof.
  unfold uniqueNames, names, linkGlobalValue. simpl. intros U.
  rewrite map_app. apply NoDup_app.
  - now apply NoDup_names_filter.
  - simpl. constructor; [intros [] | constructor].
  - intros n Hn [<- | []].
    apply in_map_iff in Hn. destruct Hn as (v & E & Hv).
    apply filter_In in Hv. destruct Hv as [_ Hv].
    apply negb_true_iff in Hv. apply hasName_false in Hv. congruence.
Qed.

Lemma link_fold_uniqueNames (l : list GlobalValue) :
  forall dst,
    uniqueNames dst -> uniqueNames (fold_left linkGlobalValue l dst).
Proof.
  induction l as [|s l IH]; intros dst U; simpl; [exact U|].
  apply IH. now apply linkGlobalValue_uniqueNames.
Qed.

Lemma link_fold_metadata (l : list GlobalValue) :
  forall dst,
    getDataLayout (fold_left linkGlobalValue l dst) = getDataLayout dst /\
    getTargetTriple (fold_left linkGlobalValue l dst) = getTargetTriple dst.
Proof.
  induction l as [|s l IH]; intros dst; simpl; [now split|].
  destruct (IH (linkGlobalValue dst s)) as [-> ->]. now split.
Qed.

Lemma isFunction_not_global (f : GlobalValue) :
  isFunction f = true -> isGlobalVariable f = false.
Proof.
  unfold isFunction, isGlobalVariable. now destruct (getKind f).
Qed.

(** An iteration of the loop leaves a name bound to a function alone. *)
Lemma renameExisting_keeps_function (st : Hotpatch) (g : GlobalValue)
    (n : string) (f : GlobalValue) :
  getNamedValue (module st) n = Some f ->
  isGlobalVariable f = false ->
  getNamedValue (module (renameExisting st g)) n = Some f /\
  (forall req, In (SetName n req) (log (renameExisting st g)) ->
               In (SetName n req) (log st)).
Proof.
  intros Hf K.
  destruct (renameExisting_cases st g) as [[-> _] | (b & _ & G & ->)];
    [now split|].
  assert (Hne : getName g <> n).
  { intros E. rewrite E in G. apply getGlobalVariable_Some in G.
    destruct G as [G Kb]. rewrite Hf in G. injection G as ->. congruence. }
  simpl. split.
  - apply setName_keeps; [congruence | exact Hf].
  - intros req X. apply in_app_or in X. destruct X as [X | X]; [exact X|].
    simpl in X. destruct X as [X | [X | []]]; [| discriminate].
    injection X as E _. contradiction.
Qed.

Lemma resolve_keeps_function (l : list GlobalValue) (n : string)
    (f : GlobalValue) :
  forall st,
    getNamedValue (module st) n = Some f ->
    isGlobalVariable f = false ->
    getNamedValue (module (fold_left renameExisting l st)) n = Some f /\
    (forall req, In (SetName n req) (log (fold_left renameExisting l st)) ->
                 In (SetName n req) (log st)).
Proof.
  induction l as [|g l IH]; intros st Hf K; simpl; [now split|].
  destruct (renameExisting_keeps_function st g n f Hf K) as [H1 H2].
  destruct (IH (renameExisting st g) H1 K) as [H3 H4].
  split; [exact H3 | auto].
Qed.

(** The events of the loop come in pairs, a [setName] and its notice, each
    pair for a selector global variable of the list. *)
Lemma resolve_notices (l : list GlobalValue) :
  forall st, exists rs,
    log (fold_left renameExisting l st) = (log st ++ rs)%list /\
    (forall text,
       In (Outs text) rs ->
       exists g, In g l /\ isSelector (getName g) = true /\
                 text = notice (getName g) /\
                 In (SetName (getName g) (original (getName g))) rs) /\
    (forall old req,
       In (SetName old req) rs ->
       exists g, In g l /\ isSelector (getName g) = true /\
                 old = getName g /\ req = original old /\
                 In (Outs (notice old)) rs).
Proof.
  induction l as [|g l IH]; intros st; simpl.
  - exists []. rewrite app_nil_r. repeat split; intros; contradiction.
  - destruct (IH (renameExisting st g)) as (rs & E & O & S). rewrite E.
    destruct (renameExisting_cases st g) as [[-> _] | (b & P & _ & ->)].
    + exists rs. split; [reflexivity|]. split.
      * intros text X. destruct (O text X) as (g' & Hg & R). eauto.
      * intros old req X. destruct (S old req X) as (g' & Hg & R). eauto.
    + simpl. rewrite <- app_assoc. eexists. split; [reflexivity|]. split.
      * intros text [X | [X | X]]; [discriminate | |].
        -- injection X as <-. exists g. simpl. auto.
        -- destruct (O text X) as (g' & Hg & Pg & T & I).
           exists g'. simpl. auto 7.
      * intros old req [X | [X | X]]; [| discriminate |].
        -- injection X as <- <-. exists g. simpl. auto 7.
        -- destruct (S old req X) as (g' & Hg & Pg & T & R & I).
           exists g'. simpl. auto 8.
Qed.

Section Hotpatch_more.

Variable LinkError : IRModule -> IRModule -> option nat.

(** A call on a path that holds no parsable file: the result is false, the
    module is returned as passed, and the events end in the one message. *)
Lemma hotpatchRemill_unparsed (fs : FileSystem) (base : IRModule)
    (path : string) :
  (forall patch, fs path <> Some (inr patch)) ->
  exists pre t,
    hotpatchRemill LinkError fs base path
    = (false, base, (pre ++ [Errs t])%list) /\
    forall e, In e pre -> exists p found, e = FsExists p found
                                          \/ e = ParseIRFile p found.
Proof.
  intros H. unfold hotpatchRemill, exists_, parseIRFile.
  destruct (fs path) as [[diagnostic | patch] |]; simpl.
  - exists [FsExists path true; ParseIRFile path false]. eexists.
    split; [reflexivity|].
    intros e [<- | [<- | []]]; eauto.
  - now destruct (H patch).
  - exists [FsExists path false]. eexists. split; [reflexivity|].
    intros e [<- | []]; eauto.
Qed.

(** X1.  A symbol of the semantics module whose name the patch does not define
    is found under its name, unchanged, after the call - whether the call
    succeeded, failed to find or parse the file, or failed in the linker. *)
Theorem hotpatch_keeps_other_names (fs : FileSystem) (base : IRModule)
    (path n : string) (v : GlobalValue) :
  getNamedValue base n = Some v ->
  (forall patch, fs path = Some (inr patch) -> getNamedValue patch n = None) ->
  getNamedValue (snd (fst (hotpatchRemill LinkError fs base path))) n = Some v.
Proof.
  intros Hv Hp. destruct (fs path) as [[diagnostic | patch] |] eqn:E.
  - destruct (hotpatchRemill_unparsed fs base path) as (pre & t & -> & _);
      [intros p; congruence | exact Hv].
  - specialize (Hp patch eq_refl).
    rewrite (hotpatchRemill_parsed LinkError fs base patch path E). cbv zeta.
    pose proof (resolved_patch base patch path) as Hs.
    assert (Hn : ~ In n (names (patchModule (resolveCollisions
                          (adjustTarget (loaded base patch path)))))).
    { unfold names. rewrite Hs. now apply getNamedValue_None. }
    assert (Hr : getNamedValue
                   (module (resolveCollisions
                              (adjustTarget (loaded base patch path)))) n
                 = Some v).
    { unfold resolveCollisions. apply resolve_keeps; [| exact Hv].
      intros g Hg _ X. apply (globals_names_free LinkError patch n Hp).
      rewrite <- X. now apply in_map. }
    destruct (LinkError _ _) as [moved|]; simpl.
    + now rewrite linkPartially_other.
    + now rewrite linkInto_other.
  - destruct (hotpatchRemill_unparsed fs base path) as (pre & t & -> & _);
      [intros p; congruence | exact Hv].
Qed.

(** X2.  After a call that returns true the semantics module is the patch laid
    over the module the rename loop produced: a name the patch defines
    resolves to the patch's symbol - global or function, selector or not -
    and every other name resolves as the loop left it. *)
Theorem hotpatch_installs_patch (fs : FileSystem)
    (base patch m' : IRModule) (path : string) (events : list Event) :
  uniqueNames patch ->
  fs path = Some (inr patch) ->
  hotpatchRemill LinkError fs base path = (true, m', events) ->
  forall n,
    getNamedValue m' n =
    match getNamedValue patch n with
    | Some s => Some s
    | None =>
        getNamedValue
          (module (resolveCollisions (adjustTarget (loaded base patch path))))
          n
    end.
Proof.
  intros U Hfs Hrun n.
  rewrite (hotpatchRemill_parsed LinkError fs base patch path Hfs) in Hrun.
  cbv zeta in Hrun.
  pose proof (resolved_patch base patch path) as Hp.
  destruct (LinkError _ _) as [moved|]; [discriminate|].
  injection Hrun as <- _.
  destruct (getNamedValue patch n) as [s|] eqn:E.
  - pose proof (getNamedValue_name _ _ _ E) as <-.
    unfold getNamedValue in E. apply find_some in E. destruct E as [E _].
    apply linkInto_hit.
    + unfold uniqueNames, names. now rewrite Hp.
    + now rewrite Hp.
  - apply linkInto_other. unfold names. rewrite Hp.
    now apply getNamedValue_None.
Qed.

(** X3.  I1 is kept: if the names of the semantics module are unique before the
    call they are unique after it, whatever the patch holds and however the
    call ends. *)
Theorem hotpatch_keeps_names_unique (fs : FileSystem) (base : IRModule)
    (path : string) :
  uniqueNames base ->
  uniqueNames (snd (fst (hotpatchRemill LinkError fs base path))).
Proof.
  intros U. destruct (fs path) as [[diagnostic | patch] |] eqn:E.
  - destruct (hotpatchRemill_unparsed fs base path) as (pre & t & -> & _);
      [intros p; congruence | exact U].
  - rewrite (hotpatchRemill_parsed LinkError fs base patch path E). cbv zeta.
    assert (Ur : uniqueNames
                   (module (resolveCollisions
                              (adjustTarget (loaded base patch path))))).
    { unfold resolveCollisions. now apply resolve_uniqueNames. }
    destruct (LinkError _ _) as [moved|]; simpl.
    + unfold linkPartially. now apply link_fold_uniqueNames.
    + unfold linkInto. now apply link_fold_uniqueNames.
  - destruct (hotpatchRemill_unparsed fs base path) as (pre & t & -> & _);
      [intros p; congruence | exact U].
Qed.

(** X4.  The call never changes the data layout or the target triple of the
    semantics module, and when it reaches the linker the patch carries the
    same two values (I2). *)
Theorem hotpatch_keeps_target (fs : FileSystem) (base : IRModule)
    (path : string) :
  getDataLayout (snd (fst (hotpatchRemill LinkError fs base path)))
    = getDataLayout base /\
  getTargetTriple (snd (fst (hotpatchRemill LinkError fs base path)))
    = getTargetTriple base /\
  (forall patch,
     fs path = Some (inr patch) ->
     getDataLayout
       (patchModule (resolveCollisions (adjustTarget (loaded base patch path))))
       = getDataLayout base /\
     getTargetTriple
       (patchModule (resolveCollisions (adjustTarget (loaded base patch path))))
       = getTargetTriple base).
Proof.
  assert (Hloop : forall patch,
             getDataLayout
               (module (resolveCollisions
                          (adjustTarget (loaded base patch path))))
               = getDataLayout base /\
             getTargetTriple
               (module (resolveCollisions
                          (adjustTarget (loaded base patch path))))
               = getTargetTriple base).
  { intros patch. unfold resolveCollisions.
    destruct (resolve_metadata
                (globals (patchModule (adjustTarget (loaded base patch path))))
                (adjustTarget (loaded base patch path))) as [-> ->].
    now split. }
  repeat split.
  - destruct (fs path) as [[diagnostic | patch] |] eqn:E.
    + now destruct (hotpatchRemill_unparsed fs base path)
        as (pre & t & -> & _); [intros p; congruence |].
    + rewrite (hotpatchRemill_parsed LinkError fs base patch path E).
      cbv zeta. destruct (Hloop patch) as [<- _].
      destruct (LinkError _ _) as [moved|]; simpl; apply link_fold_metadata.
    + now destruct (hotpatchRemill_unparsed fs base path)
        as (pre & t & -> & _); [intros p; congruence |].
  - destruct (fs path) as [[diagnostic | patch] |] eqn:E.
    + now destruct (hotpatchRemill_unparsed fs base path)
        as (pre & t & -> & _); [intros p; congruence |].
    + rewrite (hotpatchRemill_parsed LinkError fs base patch path E).
      cbv zeta. destruct (Hloop patch) as [_ <-].
      destruct (LinkError _ _) as [moved|]; simpl; apply link_fold_metadata.
    + now destruct (hotpatchRemill_unparsed fs base path)
        as (pre & t & -> & _); [intros p; congruence |].
  - destruct (link_time_metadata base patch path) as [-> _].
    apply Hloop.
  - destruct (link_time_metadata base patch path) as [_ ->].
    apply Hloop.
Qed.

(** X6.  The loop never renames a function of the semantics module: a name the
    semantics module binds to a function is still bound to it when the loop
    ends, even when the patch holds a selector global of that name, and the
    call applies no [setName] to it. *)
Theorem hotpatch_never_renames_functions (fs : FileSystem)
    (base patch : IRModule) (path n : string) (f : GlobalValue) :
  fs path = Some (inr patch) ->
  getNamedValue base n = Some f ->
  isFunction f = true ->
  getNamedValue
    (module (resolveCollisions (adjustTarget (loaded base patch path)))) n
  = Some f /\
  forall requested,
    ~ In (SetName n requested) (snd (hotpatchRemill LinkError fs base path)).
Proof.
  intros Hfs Hf K. apply isFunction_not_global in K.
  destruct (resolve_keeps_function
              (globals (patchModule (adjustTarget (loaded base patch path))))
              n f (adjustTarget (loaded base patch path)) Hf K) as [H1 H2].
  split; [exact H1|].
  intros requested X.
  rewrite (hotpatchRemill_parsed LinkError fs base patch path Hfs) in X.
  cbv zeta in X.
  assert (Hlog : ~ In (SetName n requested)
                      (log (resolveCollisions
                              (adjustTarget (loaded base patch path))))).
  { intros Y. apply H2 in Y. simpl in Y. intuition discriminate. }
  destruct (LinkError _ _) as [moved|]; simpl in X;
    apply in_app_or in X; destruct X as [X | X]; try contradiction;
    simpl in X; intuition discriminate.
Qed.

(** X7.  All a call writes to the output stream are notices: every line names a
    selector global variable of the patch and comes with a [setName] from
    that name to the suffixed name, and every [setName] of the call comes
    with its notice. *)
Theorem hotpatch_notices (fs : FileSystem) (base : IRModule) (path : string) :
  (forall text,
     In (Outs text) (snd (hotpatchRemill LinkError fs base path)) ->
     exists patch g,
       fs path = Some (inr patch) /\ In g (globals patch) /\
       isSelector (getName g) = true /\ text = notice (getName g) /\
       In (SetName (getName g) (original (getName g)))
          (snd (hotpatchRemill LinkError fs base path))) /\
  (forall old requested,
     In (SetName old requested) (snd (hotpatchRemill LinkError fs base path)) ->
     exists patch g,
       fs path = Some (inr patch) /\ In g (globals patch) /\
       isSelector old = true /\ old = getName g /\
       requested = original old /\
       In (Outs (notice old)) (snd (hotpatchRemill LinkError fs base path))).
Proof.
  destruct (fs path) as [[diagnostic | patch] |] eqn:E.
  - destruct (hotpatchRemill_unparsed fs base path) as (pre & t & -> & F);
      [intros p; congruence |].
    simpl. split; intros; exfalso;
      (apply in_app_or in H; destruct H as [H | H];
       [destruct (F _ H) as (p & found & [Y | Y]); discriminate
       | simpl in H; intuition discriminate]).
  - rewrite (hotpatchRemill_parsed LinkError fs base patch path E). cbv zeta.
    destruct (resolve_notices
                (globals (patchModule (adjustTarget (loaded base patch path))))
                (adjustTarget (loaded base patch path))) as (rs & L & O & S).
    fold (resolveCollisions (adjustTarget (loaded base patch path))) in L.
    assert (Hin : forall e tail,
               In e rs ->
               In e (log (resolveCollisions
                            (adjustTarget (loaded base patch path)))
                     ++ tail)%list).
    { intros e tail X. apply in_or_app. left. rewrite L.
      apply in_or_app. now right. }
    assert (Hout : forall e tail,
               (forall x, In x tail ->
                          exists b t, x = LinkModules b \/ x = Errs t) ->
               In e (log (resolveCollisions
                            (adjustTarget (loaded base patch path)))
                     ++ tail)%list ->
               (exists t, e = Outs t) \/ (exists a b, e = SetName a b) ->
               In e rs).
    { intros e tail T X K. apply in_app_or in X. destruct X as [X | X].
      - rewrite L in X. apply in_app_or in X. destruct X as [X | X];
          [| exact X].
        simpl in X.
        destruct K as [(t & ->) | (a & b & ->)]; intuition discriminate.
      - destruct (T _ X) as (b & t & [-> | ->]);
          destruct K as [(t' & K) | (a' & b' & K)]; discriminate. }
    assert (T1 : forall x,
               In x [LinkModules true;
                     Errs ("Failed to link hotpatch module" ++ nl)%string] ->
               exists b t, x = LinkModules b \/ x = Errs t).
    { intros x [<- | [<- | []]].
      - exists true, "". now left.
      - exists true, ("Failed to link hotpatch module" ++ nl)%string.
        now right. }
    assert (T2 : forall x, In x [LinkModules false] ->
                           exists b t, x = LinkModules b \/ x = Errs t).
    { intros x [<- | []]. exists false, "". now left. }
    destruct (LinkError _ _) as [moved|]; simpl; split.
    + intros text X. apply (Hout _ _ T1) in X; [| left; eauto].
      destruct (O text X) as (g & Hg & P & T & I).
      exists patch, g. repeat split; auto.
    + intros old req X. apply (Hout _ _ T1) in X; [| right; eauto].
      destruct (S old req X) as (g & Hg & P & T & R & I).
      exists patch, g. subst old. repeat split; auto.
    + intros text X. apply (Hout _ _ T2) in X; [| left; eauto].
      destruct (O text X) as (g & Hg & P & T & I).
      exists patch, g. repeat split; auto.
    + intros old req X. apply (Hout _ _ T2) in X; [| right; eauto].
      destruct (S old req X) as (g & Hg & P & T & R & I).
      exists patch, g. subst old. repeat split; auto.
  - destruct (hotpatchRemill_unparsed fs base path) as (pre & t & -> & F);
      [intros p; congruence |].
    simpl. split; intros; exfalso;
      (apply in_app_or in H; destruct H as [H | H];
       [destruct (F _ H) as (p & found & [Y | Y]); discriminate
       | simpl in H; intuition discriminate]).
Qed.

(** X8.  A patch none of whose selector globals the semantics module holds as a
    global variable: the loop renames nothing and writes nothing, and a
    call whose merge completes returns the plain override merge of the
    patch into the module as it was passed. *)
Theorem hotpatch_without_collision (fs : FileSystem) (base patch : IRModule)
    (path : string) :
  fs path = Some (inr patch) ->
  (forall g, In g (globals patch) -> isSelector (getName g) = true ->
             getGlobalVariable base (getName g) = None) ->
  LinkError base (patchModule (adjustTarget (loaded base patch path))) = None ->
  hotpatchRemill LinkError fs base path
  = (true, linkInto base (patchModule (adjustTarget (loaded base patch path))),
     [FsExists path true; ParseIRFile path true;
      SetDataLayout (getDataLayout base);
      SetTargetTriple (getTargetTriple base);
      LinkModules false]).
Proof.
  intros Hfs Hfree Hlink.
  rewrite (hotpatchRemill_parsed LinkError fs base patch path Hfs). cbv zeta.
  rewrite (resolveCollisions_no_collision
             (adjustTarget (loaded base patch path)) Hfree).
  simpl. simpl in Hlink. now rewrite Hlink.
Qed.

End Hotpatch_more.

(* ================================================================== *)
(** ** The loop on a taken name, and the state a failed merge leaves *)
(* ================================================================== *)

Lemma prefix_refl (p : string) : String.prefix p p = true.
Proof.
  induction p as [|c p IH]; simpl; [reflexivity|].
  destruct (ascii_dec c c) as [_ | H]; [exact IH | congruence].
Qed.

Lemma uniqueCandidate_longer (base : string) (k : nat) :
  String.length base < String.length (uniqueCandidate base k).
Proof.
  unfold uniqueCandidate. rewrite length_append. simpl. lia.
Qed.

Lemma original_longer (n : string) :
  String.length n < String.length (original n).
Proof. unfold original. rewrite length_append. simpl. lia. Qed.

Lemma assignedName_original_neq (m : IRModule) (N : string) :
  fst (assignedName m N (original N)) <> N.
Proof.
  intros E. pose proof (original_longer N) as H1.
  destruct (assignedName_shape m N (original N)) as [X | (k & X)];
    rewrite X in E.
  - rewrite E in H1. lia.
  - pose proof (uniqueCandidate_longer (original N) k) as H2.
    rewrite E in H2. lia.
Qed.

(** Whatever name it lands on, [setName(N + "_original")] frees [N]. *)
Lemma setName_original_frees (m : IRModule) (N : string) :
  getNamedValue (setName m N (original N)) N = None.
Proof.
  unfold getNamedValue. rewrite SymTab_setName by apply original_neq.
  apply find_rename_gone. intros E. symmetry in E.
  now apply assignedName_original_neq in E.
Qed.

(** On a taken suffixed name the value lands on a numbered variant of it,
    and the holder of the suffixed name is left alone. *)
Lemma setName_deflects (m : IRModule) (N : string) (v w : GlobalValue) :
  getNamedValue m N = Some v ->
  getNamedValue m (original N) = Some w ->
  exists k,
    getNamedValue (setName m N (original N)) (uniqueCandidate (original N) k)
    = Some (withName v (uniqueCandidate (original N) k)) /\
    getNamedValue (setName m N (original N)) (original N) = Some w.
Proof.
  intros Hv Hw.
  pose proof (assignedName_fresh m N (original N)) as Hfresh.
  pose proof (assignedName_original_neq m N) as Hneq.
  assert (Hin : In (original N) (otherNames m N)).
  { apply otherNames_In; [| apply original_neq].
    apply (getNamedValue_In m _ w Hw). }
  destruct (assignedName_shape m N (original N)) as [X | (k & X)].
  - rewrite X in Hfresh. contradiction.
  - exists k. split.
    + unfold getNamedValue. rewrite SymTab_setName by apply original_neq.
      rewrite X in *. apply find_rename_hit; [congruence | exact Hv |].
      apply getNamedValue_None. intros Y. apply Hfresh.
      apply otherNames_In; [exact Y | exact Hneq].
    + apply setName_keeps; [apply original_neq | exact Hw].
Qed.

Lemma clearOfRenames_spec (patch : IRModule) (n : string) :
  clearOfRenames patch n = true ->
  forall g, In g (globals patch) ->
            String.prefix (original (getName g)) n = false.
Proof.
  unfold clearOfRenames. intros H g Hg.
  rewrite forallb_forall in H. apply negb_true_iff. now apply H.
Qed.

Lemma definesNoVariant_spec (patch : IRModule) (n : string) :
  definesNoVariant patch n = true ->
  forall s, In s (SymTab patch) -> String.prefix n (getName s) = false.
Proof.
  unfold definesNoVariant. intros H s Hs.
  rewrite forallb_forall in H. apply negb_true_iff. now apply H.
Qed.

Lemma resolve_keeps_unbound (l : list GlobalValue) (n : string) :
  forall st,
    (forall g, In g l -> String.prefix (original (getName g)) n = false) ->
    getNamedValue (module st) n = None ->
    getNamedValue (module (fold_left renameExisting l st)) n = None.
Proof.
  induction l as [|g l IH]; intros st Hl F; simpl; [exact F|].
  apply IH; [intros g' Hg'; apply Hl; now right |].
  pose proof (Hl g (or_introl eq_refl)) as Hg.
  destruct (renameExisting_cases st g) as [[-> _] | (b & _ & _ & ->)];
    [exact F|].
  simpl. apply setName_keeps_free; [| | exact F].
  - intros ->. rewrite prefix_refl in Hg. discriminate.
  - intros k ->. unfold uniqueCandidate in Hg.
    rewrite prefix_append in Hg. discriminate.
Qed.

(** Loop level: a selector the semantics module holds as a global variable
    is unbound when the loop ends, unless a later renaming lands on it. *)
Lemma resolve_frees (l : list GlobalValue) (N : string) (bv : GlobalValue) :
  forall st,
    isSelector N = true ->
    In N (map getName l) ->
    (forall g, In g l -> String.prefix (original (getName g)) N = false) ->
    getGlobalVariable (module st) N = Some bv ->
    getNamedValue (module (fold_left renameExisting l st)) N = None.
Proof.
  induction l as [|g l IH]; intros st P Hin Hl G; simpl; [destruct Hin|].
  assert (Hl' : forall g', In g' l ->
                           String.prefix (original (getName g')) N = false)
    by (intros g' Hg'; apply Hl; now right).
  destruct (String.eqb_spec (getName g) N) as [E | E].
  - apply resolve_keeps_unbound; [exact Hl'|].
    destruct (renameExisting_cases st g)
      as [[_ [X | X]] | (b & _ & _ & ->)]; try congruence.
    simpl. rewrite E. apply setName_original_frees.
  - apply IH; try assumption.
    + destruct Hin as [X | X]; [congruence | exact X].
    + apply getGlobalVariable_Some in G. destruct G as [G K].
      apply getGlobalVariable_Some. split; [| exact K].
      apply renameExisting_keeps; [| exact G]. intros _. exact E.
Qed.

(** Loop level: when the suffixed name is taken, the semantics module's
    global ends on a numbered variant and the suffixed name keeps its
    holder, provided no global of the patch carries such a name. *)
Lemma resolve_deflects (l : list GlobalValue) (N : string)
    (bv w : GlobalValue) :
  forall st,
    isSelector N = true ->
    In N (map getName l) ->
    (forall g, In g l -> String.prefix (original N) (getName g) = false) ->
    getGlobalVariable (module st) N = Some bv ->
    getNamedValue (module st) (original N) = Some w ->
    exists k,
      getNamedValue (module (fold_left renameExisting l st))
        (uniqueCandidate (original N) k)
      = Some (withName bv (uniqueCandidate (original N) k)) /\
      getNamedValue (module (fold_left renameExisting l st)) (original N)
      = Some w.
Proof.
  induction l as [|g l IH]; intros st P Hin Hl G W; simpl; [destruct Hin|].
  assert (Hl' : forall g', In g' l ->
                           String.prefix (original N) (getName g') = false)
    by (intros g' Hg'; apply Hl; now right).
  destruct (String.eqb_spec (getName g) N) as [E | E].
  - destruct (renameExisting_cases st g)
      as [[_ [X | X]] | (b & _ & _ & ->)]; try congruence.
    rewrite E. apply getGlobalVariable_Some in G. destruct G as [G _].
    destruct (setName_deflects (module st) N bv w G W) as (k & H1 & H2).
    exists k. split; apply resolve_keeps; simpl; try assumption.
    + intros g' Hg' _ X. specialize (Hl' g' Hg'). rewrite X in Hl'.
      unfold uniqueCandidate in Hl'. rewrite prefix_append in Hl'.
      discriminate.
    + intros g' Hg' _ X. specialize (Hl' g' Hg'). rewrite X in Hl'.
      rewrite prefix_refl in Hl'. discriminate.
  - apply IH; try assumption.
    + destruct Hin as [X | X]; [congruence | exact X].
    + apply getGlobalVariable_Some in G. destruct G as [G K].
      apply getGlobalVariable_Some. split; [| exact K].
      apply renameExisting_keeps; [| exact G]. intros _. exact E.
    + apply renameExisting_keeps; [| exact W]. intros _ X.
      pose proof (Hl g (or_introl eq_refl)) as Hg. rewrite X in Hg.
      rewrite prefix_refl in Hg. discriminate.
Qed.

Lemma notice_inj (a b : string) : notice a = notice b -> a = b.
Proof.
  unfold notice. intros H. apply append_cancel_l in H.
  now apply append_cancel_r in H.
Qed.

(** Loop level: on a name that is unbound and on which no renaming can
    land, the loop adds no [setName]. *)
Lemma resolve_absent (l : list GlobalValue) (N : string) :
  forall st rs,
    (forall g, In g l -> String.prefix (original (getName g)) N = false) ->
    getNamedValue (module st) N = None ->
    log (fold_left renameExisting l st) = (log st ++ rs)%list ->
    forall requested, ~ In (SetName N requested) rs.
Proof.
  induction l as [|g l IH]; intros st rs Hl F E requested X; simpl in E.
  - rewrite <- (app_nil_r (log st)) in E at 1. apply app_inv_head in E.
    subst rs. destruct X.
  - assert (Hl' : forall g', In g' l ->
                     String.prefix (original (getName g')) N = false)
      by (intros g' Hg'; apply Hl; now right).
    assert (F' : getNamedValue (module (renameExisting st g)) N = None).
    { apply (resolve_keeps_unbound [g] N st); [| exact F].
      intros g' [<- | []]. apply Hl. now left. }
    destruct (resolve_log l (renameExisting st g)) as (rs' & E' & _).
    pose proof (IH (renameExisting st g) rs' Hl' F' E' requested) as Hrs'.
    rewrite E' in E.
    destruct (renameExisting_cases st g) as [[R _] | (b & _ & G & R)];
      rewrite R in E.
    + apply app_inv_head in E. subst rs'. contradiction.
    + simpl in E. rewrite <- app_assoc in E. apply app_inv_head in E.
      subst rs. simpl in X. destruct X as [X | [X | X]];
        [| discriminate | contradiction].
      injection X as X _. rewrite X in G.
      apply getGlobalVariable_Some in G. destruct G as [G _]. congruence.
Qed.

(** C7 (P1), amended.  Let the semantics module the loop is applied to hold
    no symbol named [N], and let no global variable [M] of the patch have
    [M_original] as a prefix of [N], so that no renaming of the loop can
    land on [N].  Then the loop leaves [N] unbound, applies no [setName] to
    a symbol named [N], writes no notice for [N], and reports nothing as an
    error: whatever of these the log holds afterwards it held before. *)
Theorem resolver_leaves_absent_selector (st : Hotpatch) (N : string) :
  getNamedValue (module st) N = None ->
  clearOfRenames (patchModule st) N = true ->
  getNamedValue (module (resolveCollisions st)) N = None /\
  (forall requested,
     In (SetName N requested) (log (resolveCollisions st)) ->
     In (SetName N requested) (log st)) /\
  (In (Outs (notice N)) (log (resolveCollisions st)) ->
   In (Outs (notice N)) (log st)) /\
  (forall text,
     In (Errs text) (log (resolveCollisions st)) -> In (Errs text) (log st)).
Proof.
  intros F C. pose proof (clearOfRenames_spec (patchModule st) N C) as Hl.
  unfold resolveCollisions.
  destruct (resolve_notices (globals (patchModule st)) st)
    as (rs & E & O & _).
  pose proof (resolve_absent (globals (patchModule st)) N st rs Hl F E)
    as Hno.
  destruct (resolve_log (globals (patchModule st)) st) as (rs' & E' & R & _).
  assert (rs' = rs) by (rewrite E in E'; now apply app_inv_head in E').
  subst rs'. rewrite E. split; [| split; [| split]].
  - now apply resolve_keeps_unbound.
  - intros requested X. apply in_app_or in X. destruct X as [X | X];
      [exact X | now apply Hno in X].
  - intros X. apply in_app_or in X. destruct X as [X | X]; [exact X|].
    destruct (O _ X) as (g & _ & _ & T & S). apply notice_inj in T.
    rewrite <- T in S. now apply Hno in S.
  - intros text X. apply in_app_or in X. destruct X as [X | X]; [exact X|].
    rewrite Forall_forall in R. destruct (R _ X).
Qed.

Section Hotpatch_edges.

Variable LinkError : IRModule -> IRModule -> option nat.

(** X9.  Patching over an earlier patch.  When the semantics module already
    holds a symbol under [N_original], and the patch defines no name that starts
    with [N_original], a call that returns true leaves that symbol where it
    was, moves the semantics module's global [N] to a numbered variant
    [N_original.k], and binds [N] to the patch's global: nothing is
    overwritten and nothing is lost. *)
Theorem hotpatch_deflects_on_taken_name (fs : FileSystem)
    (base patch m' : IRModule) (path : string) (events : list Event)
    (N : string) (pv bv w : GlobalValue) :
  uniqueNames patch ->
  fs path = Some (inr patch) ->
  isSelector N = true ->
  getGlobalVariable patch N = Some pv ->
  getGlobalVariable base N = Some bv ->
  getNamedValue base (original N) = Some w ->
  definesNoVariant patch (original N) = true ->
  hotpatchRemill LinkError fs base path = (true, m', events) ->
  getNamedValue m' N = Some pv /\
  getNamedValue m' (original N) = Some w /\
  exists k,
    getNamedValue m' (uniqueCandidate (original N) k)
    = Some (withName bv (uniqueCandidate (original N) k)).
Proof.
  intros U Hfs P Gp Gb W D Hrun.
  pose proof (definesNoVariant_spec patch (original N) D) as Hd.
  rewrite (hotpatchRemill_parsed LinkError fs base patch path Hfs) in Hrun.
  cbv zeta in Hrun.
  pose proof (resolved_patch base patch path) as Hp.
  destruct (LinkError _ _) as [moved|]; [discriminate|].
  injection Hrun as <- _.
  assert (Hfree : forall x,
             String.prefix (original N) x = true ->
             ~ In x (names (patchModule (resolveCollisions
                                (adjustTarget (loaded base patch path)))))).
  { intros x Hx Y. unfold names in Y. rewrite Hp in Y.
    apply in_map_iff in Y. destruct Y as (s & <- & Hs).
    rewrite (Hd s Hs) in Hx. discriminate. }
  destruct (resolve_deflects
              (globals (patchModule (adjustTarget (loaded base patch path))))
              N bv w (adjustTarget (loaded base patch path)) P)
    as (k & H1 & H2); try assumption.
  - apply (globals_names patch N pv Gp).
  - intros g Hg. apply Hd. unfold globals in Hg. apply filter_In in Hg.
    tauto.
  - split; [| split].
    + destruct (globals_names patch N pv Gp) as [Hin _].
      apply getGlobalVariable_Some in Gp. destruct Gp as [Gp _].
      rewrite <- (getNamedValue_name _ _ _ Gp).
      apply linkInto_hit.
      * unfold uniqueNames, names. now rewrite Hp.
      * now rewrite Hp.
    + rewrite linkInto_other; [exact H2|].
      apply Hfree. apply prefix_refl.
    + exists k. rewrite linkInto_other; [exact H1|].
      apply Hfree. unfold uniqueCandidate. apply prefix_append.
Qed.

(** X10.  The state a failed merge can leave.  When the linker fails before it
    has moved the patch's [N] into the semantics module, the call returns
    false with [N] bound to nothing: the semantics module's own global was
    renamed away by the loop and the patch's was not linked in.  (The
    condition [clearOfRenames] rules out that another renaming of the loop
    lands on [N].) *)
Theorem link_failure_unbinds_selector (fs : FileSystem)
    (base patch : IRModule) (path : string) (N : string)
    (pv bv : GlobalValue) (moved : nat) :
  fs path = Some (inr patch) ->
  isSelector N = true ->
  getGlobalVariable patch N = Some pv ->
  getGlobalVariable base N = Some bv ->
  clearOfRenames patch N = true ->
  LinkError
    (module (resolveCollisions (adjustTarget (loaded base patch path))))
    (patchModule (resolveCollisions (adjustTarget (loaded base patch path))))
  = Some moved ->
  ~ In N (map getName (firstn moved (valuesToLink patch))) ->
  exists m' events,
    hotpatchRemill LinkError fs base path = (false, m', events) /\
    getNamedValue m' N = None.
Proof.
  intros Hfs P Gp Gb C Hfail Hmoved.
  rewrite (hotpatchRemill_parsed LinkError fs base patch path Hfs).
  cbv zeta. rewrite Hfail.
  pose proof (resolved_patch base patch path) as Hp.
  eexists. eexists. split; [reflexivity|].
  unfold linkPartially, valuesToLink, globals, functions. rewrite Hp.
  rewrite link_fold_other by exact Hmoved.
  unfold resolveCollisions.
  apply (resolve_frees _ N bv); try assumption.
  - apply (globals_names patch N pv Gp).
  - apply (clearOfRenames_spec patch N C).
Qed.

End Hotpatch_edges.

(* ================================================================== *)
(** ** Further properties of exepath.hpp and of main *)
(* ================================================================== *)

Section Main_more.

Variable LinkError : IRModule -> IRModule -> option nat.
Variable weakly_canonical : string -> string.
Variable parent_path : string -> string.
Variable path_append : string -> string -> string.
Variable liftExamples : IRModule -> nat * list string.

Lemma call_from_noStatics (c : Call) (impl : string) :
  fst (call weakly_canonical parent_path c impl noStatics)
  = match c with
    | CallExecutablePath => weakly_canonical impl
    | CallExecutableDir => parent_path (weakly_canonical impl)
    end /\
  pathCached parent_path (weakly_canonical impl)
    (snd (call weakly_canonical parent_path c impl noStatics)).
Proof.
  destruct c; simpl; (split; [reflexivity|]); split; simpl; auto.
Qed.

Lemma call_pathCached (c : Call) (impl p : string) (s : Statics) :
  pathCached parent_path p s ->
  fst (call weakly_canonical parent_path c impl s)
  = match c with
    | CallExecutablePath => p
    | CallExecutableDir => parent_path p
    end /\
  pathCached parent_path p (snd (call weakly_canonical parent_path c impl s)).
Proof.
  intros [Hp Hd]. unfold call, executableDir, executablePath.
  destruct c; rewrite ?Hp; simpl.
  - split; [reflexivity | now split].
  - destruct Hd as [Hd | Hd]; rewrite Hd; simpl; rewrite ?Hp; simpl.
    + split; [reflexivity|]. split; simpl; auto.
    + split; [reflexivity|]. split; auto.
Qed.

Lemma runCalls_pathCached (p : string) (cs : list (Call * string)) :
  forall s,
    pathCached parent_path p s ->
    pathCached parent_path p
      (snd (runCalls weakly_canonical parent_path cs s)) /\
    forall i c r,
      nth_error (fst (runCalls weakly_canonical parent_path cs s)) i
        = Some (c, r) ->
      r = match c with
          | CallExecutablePath => p
          | CallExecutableDir => parent_path p
          end.
Proof.
  induction cs as [|[c' impl] cs IH]; intros s H.
  - split; [exact H|]. intros [|i] c r X; discriminate.
  - rewrite runCalls_cons. simpl.
    destruct (call_pathCached c' impl p s H) as [R H'].
    destruct (IH _ H') as [H1 H2]. split; [exact H1|].
    intros [|i] c r X; simpl in X.
    + injection X as <- <-. exact R.
    + now apply (H2 i).
Qed.

(** X13.  The first call of a process decides every later answer: whichever of
    the two functions is called first, and whatever the platform would
    answer afterwards, every call of [executablePath] returns the canonical
    form of what the platform answered at the first call, and every call of
    [executableDir] returns its parent. *)
Theorem first_call_decides (c0 : Call) (impl0 : string)
    (cs : list (Call * string)) (i : nat) (c : Call) (r : string) :
  nth_error
    (fst (runCalls weakly_canonical parent_path ((c0, impl0) :: cs) noStatics))
    i = Some (c, r) ->
  r = match c with
      | CallExecutablePath => weakly_canonical impl0
      | CallExecutableDir => parent_path (weakly_canonical impl0)
      end.
Proof.
  rewrite runCalls_cons. simpl.
  destruct (call_from_noStatics c0 impl0) as [R H].
  destruct (runCalls_pathCached (weakly_canonical impl0) cs _ H) as [_ H2].
  destruct i as [|i]; simpl; intros X.
  - injection X as <- <-. exact R.
  - now apply (H2 i).
Qed.

(** X14.  At any point of a process, after any calls of the two functions,
    [executableDir()] is [executablePath().parent_path()]. *)
Theorem executableDir_is_parent (cs : list (Call * string)) (impl : string) :
  fst (executableDir weakly_canonical parent_path impl
         (snd (runCalls weakly_canonical parent_path cs noStatics)))
  = parent_path
      (fst (executablePath weakly_canonical impl
              (snd (runCalls weakly_canonical parent_path cs noStatics)))).
Proof.
  destruct cs as [|[c0 impl0] cs].
  - reflexivity.
  - rewrite runCalls_cons. simpl.
    destruct (call_from_noStatics c0 impl0) as [_ H].
    destruct (runCalls_pathCached (weakly_canonical impl0) cs _ H)
      as [H1 _].
    destruct (call_pathCached CallExecutableDir impl _ _ H1) as [Rd _].
    destruct (call_pathCached CallExecutablePath impl _ _ H1) as [Rp _].
    set (s := snd (runCalls weakly_canonical parent_path cs _)) in *.
    change (fst (call weakly_canonical parent_path CallExecutableDir impl s)
            = parent_path
                (fst (call weakly_canonical parent_path CallExecutablePath
                        impl s))).
    now rewrite Rd, Rp.
Qed.

(** X11.  A failed hotpatch is not fatal, and [main] goes on with whatever the
    call left.  When the linker fails before it has moved the patch's [N],
    [main] writes its warning after the events of the call and runs the
    lifting on a semantics module in which the selector [N] is bound to
    nothing; the exit code is the lifting's. *)
Theorem main_lifts_after_link_failure (fs fs' : FileSystem)
    (executable_path_impl : string) (argv : list string)
    (semantics0 patch : IRModule) (N : string) (pv bv : GlobalValue)
    (moved : nat) :
  forall hotpatchPath,
    hotpatchPath
    = selectHotpatchPath weakly_canonical parent_path path_append
        executable_path_impl argv ->
    exists_ fs hotpatchPath = true ->
    fs' hotpatchPath = Some (inr patch) ->
    isSelector N = true ->
    getGlobalVariable patch N = Some pv ->
    getGlobalVariable semantics0 N = Some bv ->
    clearOfRenames patch N = true ->
    LinkError
      (module (resolveCollisions
                 (adjustTarget (loaded semantics0 patch hotpatchPath))))
      (patchModule (resolveCollisions
                      (adjustTarget (loaded semantics0 patch hotpatchPath))))
    = Some moved ->
    ~ In N (map getName (firstn moved (valuesToLink patch))) ->
    exists semantics1 events,
      hotpatchRemill LinkError fs' semantics0 hotpatchPath
      = (false, semantics1, events) /\
      getNamedValue semantics1 N = None /\
      main LinkError weakly_canonical parent_path path_append liftExamples
        fs fs' executable_path_impl argv true (Some semantics0)
      = (fst (liftExamples semantics1),
         ([FsExists hotpatchPath true;
           Outs ("Applying hotpatch from: " ++ hotpatchPath ++ nl)%string]
          ++ events
          ++ [Outs ("Warning: Failed to apply hotpatch" ++ nl)%string]
          ++ map Outs (snd (liftExamples semantics1)))%list).
Proof.
  intros path -> Hex Hfs P Gp Gb C Hfail Hmoved. unfold main. simpl.
  set (path := selectHotpatchPath weakly_canonical parent_path path_append
                 executable_path_impl argv) in *.
  unfold applyHotpatch. rewrite Hex.
  rewrite (hotpatchRemill_parsed LinkError fs' semantics0 patch path Hfs).
  cbv zeta. rewrite Hfail.
  pose proof (resolved_patch semantics0 patch path) as Hp.
  eexists. eexists. split; [reflexivity|]. split.
  - unfold linkPartially, valuesToLink, globals, functions. rewrite Hp.
    rewrite link_fold_other by exact Hmoved.
    unfold resolveCollisions.
    apply (resolve_frees _ N bv); try assumption.
    + apply (globals_names patch N pv Gp).
    + apply (clearOfRenames_spec patch N C).
  - destruct (liftExamples _) as [code printed]. simpl.
    now rewrite <- !app_assoc.
Qed.

End Main_more.

(* ================================================================== *)
(** ** Properties of the CPUID semantics *)
(* ================================================================== *)

Lemma uint32_range (z : Z) : (0 <= uint32 z < 2 ^ 32)%Z.
Proof. unfold uint32. apply Z.mod_pos_bound. reflexivity. Qed.

Section Cpuid_properties.

Variable Memory : Type.
Variable OtherRegisters : Type.
Variable OtherState : Type.
Variable __remill_cpuid : Memory -> Z -> Z -> CPUIDResult.

(** X15.  The four registers CPUID writes hold 32-bit values afterwards: the
    results are zero-extended into [rax], [rbx], [rcx] and [rdx], whatever
    the intrinsic answers and whatever the registers held. *)
Theorem CPUID_zero_extends (memory : Memory)
    (state : State OtherRegisters OtherState) :
  (0 <= qword (rax (gpr (snd (CPUID __remill_cpuid memory state)))) < 2 ^ 32
   /\ 0 <= qword (rbx (gpr (snd (CPUID __remill_cpuid memory state)))) < 2 ^ 32
   /\ 0 <= qword (rcx (gpr (snd (CPUID __remill_cpuid memory state)))) < 2 ^ 32
   /\ 0 <= qword (rdx (gpr (snd (CPUID __remill_cpuid memory state)))) < 2 ^ 32
  )%Z.
Proof.
  unfold CPUID; simpl. repeat split; apply uint32_range.
Qed.

(** X16.  CPUID reads the leaf and the subleaf from the low halves of [rax] and
    [rcx], before it overwrites them: two states that agree on those two
    halves get the same four registers, whatever else they hold.  The
    memory pointer is returned as given and no other part of the state is
    changed. *)
Theorem CPUID_reads_low_halves (memory : Memory)
    (state1 state2 : State OtherRegisters OtherState) :
  dword (rax (gpr state1)) = dword (rax (gpr state2)) ->
  dword (rcx (gpr state1)) = dword (rcx (gpr state2)) ->
  rax (gpr (snd (CPUID __remill_cpuid memory state1)))
    = rax (gpr (snd (CPUID __remill_cpuid memory state2))) /\
  rbx (gpr (snd (CPUID __remill_cpuid memory state1)))
    = rbx (gpr (snd (CPUID __remill_cpuid memory state2))) /\
  rcx (gpr (snd (CPUID __remill_cpuid memory state1)))
    = rcx (gpr (snd (CPUID __remill_cpuid memory state2))) /\
  rdx (gpr (snd (CPUID __remill_cpuid memory state1)))
    = rdx (gpr (snd (CPUID __remill_cpuid memory state2))) /\
  fst (CPUID __remill_cpuid memory state1) = memory /\
  gpr_others (gpr (snd (CPUID __remill_cpuid memory state1)))
    = gpr_others (gpr state1) /\
  state_others (snd (CPUID __remill_cpuid memory state1))
    = state_others state1.
Proof.
  intros Ha Hc. unfold CPUID; simpl. rewrite Ha, Hc. repeat split.
Qed.

End Cpuid_properties.

(* ================================================================== *)
(** ** The further properties on the examples *)
(* ================================================================== *)

Lemma hotpatch_keeps_other_names_witness :
  getNamedValue semantics_A "__remill_cpuid"
    = Some (func "__remill_cpuid" "intrinsic") /\
  getNamedValue
    (snd (fst (hotpatchRemill linkSucceeds (oneFile (inr patch_A))
                 semantics_A "patch.bc")))
    "__remill_cpuid"
  = Some (func "__remill_cpuid" "intrinsic").
Proof.
  split; [reflexivity|].
  apply (hotpatch_keeps_other_names linkSucceeds (oneFile (inr patch_A))
           semantics_A "patch.bc" "__remill_cpuid"); [reflexivity|].
  intros patch [= <-]. reflexivity.
Defined.

Lemma hotpatch_installs_patch_witness :
  hotpatchRemill linkSucceeds (oneFile (inr patch_A)) semantics_A "patch.bc"
    = (true, patched_A, events_A false) /\
  getNamedValue patched_A "CPUID" = Some (func "CPUID" "F_new_body").
Proof.
  split; [reflexivity|].
  apply (hotpatch_installs_patch linkSucceeds (oneFile (inr patch_A))
           semantics_A patch_A patched_A "patch.bc" (events_A false));
    [unique_names | reflexivity | reflexivity].
Defined.

Lemma hotpatch_keeps_names_unique_witness :
  uniqueNames semantics_A /\
  uniqueNames
    (snd (fst (hotpatchRemill linkFailsLate (oneFile (inr patch_A))
                 semantics_A "patch.bc"))).
Proof.
  split; [unique_names|].
  apply (hotpatch_keeps_names_unique linkFailsLate (oneFile (inr patch_A))
           semantics_A "patch.bc").
  unique_names.
Defined.

Lemma hotpatch_keeps_target_witness :
  oneFile (inr patch_A) "patch.bc" = Some (inr patch_A) /\
  getDataLayout
    (patchModule
       (resolveCollisions
          (adjustTarget (loaded semantics_A patch_A "patch.bc"))))
  = getDataLayout semantics_A.
Proof.
  split; [reflexivity|].
  apply (proj2 (proj2 (hotpatch_keeps_target linkSucceeds
                         (oneFile (inr patch_A)) semantics_A "patch.bc"))
           patch_A).
  reflexivity.
Defined.

Lemma hotpatch_never_renames_functions_witness :
  getNamedValue semantics_G "ISEL_CPUID" = Some (func "ISEL_CPUID" "fn_old") /\
  getNamedValue
    (module (resolveCollisions
               (adjustTarget (loaded semantics_G patch_A "patch.bc"))))
    "ISEL_CPUID"
  = Some (func "ISEL_CPUID" "fn_old").
Proof.
  split; [reflexivity|].
  apply (hotpatch_never_renames_functions linkSucceeds
           (oneFile (inr patch_A)) semantics_G patch_A "patch.bc"
           "ISEL_CPUID" (func "ISEL_CPUID" "fn_old"));
    reflexivity.
Defined.

Lemma hotpatch_notices_witness :
  In (Outs (notice "ISEL_CPUID"))
     (snd (hotpatchRemill linkSucceeds (oneFile (inr patch_A)) semantics_A
             "patch.bc")) /\
  exists patch g,
    oneFile (inr patch_A) "patch.bc" = Some (inr patch) /\
    In g (globals patch) /\
    isSelector (getName g) = true /\
    notice "ISEL_CPUID" = notice (getName g) /\
    In (SetName (getName g) (original (getName g)))
       (snd (hotpatchRemill linkSucceeds (oneFile (inr patch_A)) semantics_A
               "patch.bc")).
Proof.
  assert (H : In (Outs (notice "ISEL_CPUID"))
                (snd (hotpatchRemill linkSucceeds (oneFile (inr patch_A))
                        semantics_A "patch.bc")))
    by (simpl; auto 10).
  split; [exact H|].
  apply (proj1 (hotpatch_notices linkSucceeds (oneFile (inr patch_A))
                  semantics_A "patch.bc") _ H).
Defined.

Lemma hotpatch_without_collision_witness :
  getGlobalVariable semantics_G "ISEL_CPUID" = None /\
  hotpatchRemill linkSucceeds (oneFile (inr patch_A)) semantics_G "patch.bc"
  = (true,
     linkInto semantics_G
       (patchModule (adjustTarget (loaded semantics_G patch_A "patch.bc"))),
     [FsExists "patch.bc" true; ParseIRFile "patch.bc" true;
      SetDataLayout (getDataLayout semantics_G);
      SetTargetTriple (getTargetTriple semantics_G);
      LinkModules false]).
Proof.
  split; [reflexivity|].
  apply (hotpatch_without_collision linkSucceeds (oneFile (inr patch_A))
           semantics_G patch_A "patch.bc"); [reflexivity | | reflexivity].
  intros g [<- | []] _. reflexivity.
Defined.

Lemma hotpatch_deflects_on_taken_name_witness :
  getNamedValue patched_A (original "ISEL_CPUID")
    = Some (gvar "ISEL_CPUID_original" "F_old") /\
  getNamedValue
    (snd (fst (hotpatchRemill linkSucceeds (oneFile (inr patch_A)) patched_A
                 "patch.bc")))
    (original "ISEL_CPUID")
  = Some (gvar "ISEL_CPUID_original" "F_old") /\
  exists k,
    getNamedValue
      (snd (fst (hotpatchRemill linkSucceeds (oneFile (inr patch_A))
                   patched_A "patch.bc")))
      (uniqueCandidate (original "ISEL_CPUID") k)
    = Some (withName (gvar "ISEL_CPUID" "F_new")
              (uniqueCandidate (original "ISEL_CPUID") k)).
Proof.
  split; [reflexivity|].
  apply (hotpatch_deflects_on_taken_name linkSucceeds (oneFile (inr patch_A))
           patched_A patch_A
           (snd (fst (hotpatchRemill linkSucceeds (oneFile (inr patch_A))
                        patched_A "patch.bc")))
           "patch.bc"
           (snd (hotpatchRemill linkSucceeds (oneFile (inr patch_A))
                   patched_A "patch.bc"))
           "ISEL_CPUID" (gvar "ISEL_CPUID" "F_new")
           (gvar "ISEL_CPUID" "F_new") (gvar "ISEL_CPUID_original" "F_old"));
    try reflexivity.
  unique_names.
Defined.

Lemma link_failure_unbinds_selector_witness :
  clearOfRenames patch_A "ISEL_CPUID" = true /\
  exists m' events,
    hotpatchRemill linkFails (oneFile (inr patch_A)) semantics_A "patch.bc"
    = (false, m', events) /\
    getNamedValue m' "ISEL_CPUID" = None.
Proof.
  split; [reflexivity|].
  apply (link_failure_unbinds_selector linkFails (oneFile (inr patch_A))
           semantics_A patch_A "patch.bc" "ISEL_CPUID"
           (gvar "ISEL_CPUID" "F_new") (gvar "ISEL_CPUID" "F_old") 0);
    try reflexivity.
  simpl. tauto.
Defined.

Lemma first_call_decides_witness :
  nth_error
    (fst (runCalls canonical_example parent_example calls_example noStatics))
    3 = Some (CallExecutablePath, "/opt/remill/bin/example") /\
  "/opt/remill/bin/example" = canonical_example "/opt/remill/bin/example".
Proof.
  split; [reflexivity|].
  apply (first_call_decides canonical_example parent_example
           CallExecutableDir "/opt/remill/bin/example"
           [(CallExecutablePath, "/tmp/moved/example");
            (CallExecutableDir, "/tmp/moved/example");
            (CallExecutablePath, "/tmp/moved/again")]
           3 CallExecutablePath "/opt/remill/bin/example").
  reflexivity.
Defined.

Lemma main_lifts_after_link_failure_witness :
  exists_ (oneFile (inr patch_A)) "patch.bc" = true /\
  exists semantics1 events,
    hotpatchRemill linkFails (oneFile (inr patch_A)) semantics_A "patch.bc"
    = (false, semantics1, events) /\
    getNamedValue semantics1 "ISEL_CPUID" = None /\
    main linkFails canonical_example parent_example append_example
      lift_example (oneFile (inr patch_A)) (oneFile (inr patch_A))
      "/opt/remill/bin/example" ["example"; "patch.bc"] true
      (Some semantics_A)
    = (fst (lift_example semantics1),
       ([FsExists "patch.bc" true;
         Outs ("Applying hotpatch from: " ++ "patch.bc" ++ nl)%string]
        ++ events
        ++ [Outs ("Warning: Failed to apply hotpatch" ++ nl)%string]
        ++ map Outs (snd (lift_example semantics1)))%list).
Proof.
  split; [reflexivity|].
  apply (main_lifts_after_link_failure linkFails canonical_example
           parent_example append_example lift_example
           (oneFile (inr patch_A)) (oneFile (inr patch_A))
           "/opt/remill/bin/example" ["example"; "patch.bc"]
           semantics_A patch_A "ISEL_CPUID"
           (gvar "ISEL_CPUID" "F_new") (gvar "ISEL_CPUID" "F_old") 0
           "patch.bc");
    try reflexivity.
  simpl. tauto.
Defined.

Lemma CPUID_reads_low_halves_witness :
  dword (rax (gpr (state_example 7 1)))
    = dword (rax (gpr (state_example (7 + 2 ^ 32) 1))) /\
  rax (gpr (snd (CPUID cpuid_example tt (state_example 7 1))))
    = rax (gpr (snd (CPUID cpuid_example tt (state_example (7 + 2 ^ 32) 1)))).
Proof.
  split; [reflexivity|].
  apply (CPUID_reads_low_halves unit unit unit cpuid_example tt
           (state_example 7 1) (state_example (7 + 2 ^ 32) 1));
    reflexivity.
Defined.

(** The CPUID semantics on an example: an answer wider than 32 bits and a
    negative one are both stored as 32-bit values. *)
Example CPUID_example :
  snd (CPUID cpuid_example tt (state_example (7 + 2 ^ 32) 1))
  = {| gpr := {| rax := mkReg 7; rbx := mkReg 1;
                 rcx := mkReg (2 ^ 32 - 1); rdx := mkReg 7;
                 gpr_others := tt |};
       state_others := tt |}.
Proof. reflexivity. Qed.

(* ================================================================== *)
(** ** The amended claims on the examples *)
(* ================================================================== *)

(** C6 as stated fails: [patch_Brev] defines [ISEL_A_original] before
    [ISEL_A].  The loop moves the semantics module's [ISEL_A] to
    [ISEL_A_original]; a linker that fails after the first value of the
    patch has by then replaced that symbol with the patch's global, and the
    call returns with the renamed definition gone. *)
Lemma link_failure_counterexample : ~ link_failure_as_stated.
Proof.
  intros H.
  destruct (H linkFailsLate (oneFile (inr patch_Brev)) semantics_B patch_Brev
              "patch.bc" 1 "ISEL_A" (gvar "ISEL_A" "A_old"))
    as [_ X]; try reflexivity; try unique_names.
  vm_compute in X. discriminate.
Qed.

(** C7 as stated fails: the semantics module [semantics_B] holds no
    [ISEL_A_original], yet the loop on [patch_B] first moves [ISEL_A] to
    that name and then, reaching the patch's [ISEL_A_original], renames it
    again and writes a notice for it. *)
Lemma absent_selector_counterexample : ~ absent_selector_as_stated.
Proof.
  intros H.
  apply (H semantics_B patch_B "patch.bc" (gvar "ISEL_A_original" "X_new"))
    with (requested := "ISEL_A_original_original");
    [unique_names | unique_names | simpl; auto | reflexivity | reflexivity
    | simpl; auto 10].
Qed.

Lemma resolver_leaves_absent_selector_witness :
  getNamedValue semantics_H "ISEL_A" = None /\
  clearOfRenames patch_B "ISEL_A" = true /\
  getNamedValue
    (module (resolveCollisions (loaded semantics_H patch_B "patch.bc")))
    "ISEL_A" = None /\
  forall requested,
    ~ In (SetName "ISEL_A" requested)
         (log (resolveCollisions (loaded semantics_H patch_B "patch.bc"))).
Proof.
  split; [reflexivity|]. split; [reflexivity|].
  destruct (resolver_leaves_absent_selector
              (loaded semantics_H patch_B "patch.bc") "ISEL_A")
    as (F & S & _); [reflexivity | reflexivity |].
  split; [exact F|].
  intros requested X. apply S in X. simpl in X.
  destruct X as [X | [X | []]]; discriminate.
Defined.

Lemma hotpatch_sequence_witness :
  uniqueNames patch_A /\
  exists base' events,
    hotpatchRemill linkSucceeds (oneFile (inr patch_A)) semantics_A "patch.bc"
    = (true, base', events) /\
    getDataLayout base' = getDataLayout semantics_A /\
    getNamedValue base' "CPUID" = Some (func "CPUID" "F_new_body").
Proof.
  assert (U : uniqueNames patch_A) by unique_names.
  split; [exact U|].
  pose proof (hotpatch_sequence linkSucceeds (oneFile (inr patch_A))
                semantics_A "patch.bc") as H.
  assert (E : oneFile (inr patch_A) "patch.bc" = Some (inr patch_A))
    by reflexivity.
  rewrite E in H.
  destruct H as (conformed & renamed & base' & renames & failed
                 & Hc & _ & _ & _ & Hr & _ & _ & HL & Hhit & _ & Hrun).
  unfold linkModules, linkSucceeds in HL. injection HL as <- <-.
  eexists. eexists. split; [exact Hrun|]. split.
  - rewrite Hr, Hc. reflexivity.
  - apply (Hhit eq_refl U (func "CPUID" "F_new_body")). simpl. auto.
Defined.
